(** * Debt payoff planner: Snowball vs. Avalanche

    A shallow embedding of [app_debt_strategies.py]: the [Debt] record,
    [monthly_rate], [order_debts] and the month-by-month engine [simulate],
    followed by the properties of the engine.

    Numbers.  The source computes with Python floats.  A float is a
    rational number, and here every number is a rational kept in lowest
    terms.  The comparisons of the program ([<], [<=], [>], [min]) and its
    constants are therefore the program's own, exactly; sums, differences,
    products and quotients are exact here where the program rounds them to
    binary64.  The claims are stated on what the comparisons decide: which
    debt is paid, which is marked, the order, the rows and the keys.

    Containers.  Python lists are lists; the dictionaries of the source
    ([paid_off_month], each snapshot row, the returned [paid_off_months])
    are finite maps, with Python's rule that a later assignment to a key
    replaces the earlier one.  The data frame is the list of row
    dictionaries it is built from. *)

From Stdlib Require Import QArith Qround Qminmax Lqa Lia Sorted.
From stdpp Require Import gmap strings list fin_maps.

(** ** Arithmetic of the source *)

Module Num.

Definition add (a b : Q) : Q := Qred (a + b).
Definition sub (a b : Q) : Q := Qred (a - b).
Definition mul (a b : Q) : Q := Qred (a * b).
Definition div (a b : Q) : Q := Qred (a / b).

(** [a <= b] and [a < b] as the program tests them. *)
Definition leb (a b : Q) : bool := Qle_bool a b.
Definition ltb (a b : Q) : bool := negb (Qle_bool b a).

(** Python's [min(a, b)]: the first argument unless the second is
    strictly smaller. *)
Definition min (a b : Q) : Q := if ltb b a then b else a.

(** Python's [sum(xs)]: a left fold from 0. *)
Definition sum (xs : list Q) : Q := fold_left add xs 0%Q.

(** [round(x, 2)]: nearest multiple of 1/100, ties to the even one. *)
Definition round2 (x : Q) : Q :=
  let y := (x * 100)%Q in
  let f := Qfloor y in
  let frac := (y - inject_Z f)%Q in
  let up :=
    if ltb frac (1#2) then false
    else if ltb (1#2) frac then true
    else Z.odd f in
  Qred (inject_Z (if up then f + 1 else f) / 100).

End Num.

(** The payoff threshold of the source: the binary64 number that the
    literal [0.005] denotes, 5764607523034235 / 2^60, a little above
    5/1000. *)
Definition epsilon : Q := 5764607523034235 # 1152921504606846976.

(** The safety horizon of the loop, [1200] months. *)
Definition horizon : nat := 1200.

(** ** The data model *)

Record Debt := mkDebt {
  name : string;
  balance : Q;
  apr_pct : Q;
  min_pay : Q
}.

(** [d.balance = b] on a debt object. *)
Definition set_balance (d : Debt) (b : Q) : Debt :=
  mkDebt (name d) b (apr_pct d) (min_pay d).

Definition monthly_rate (apr : Q) : Q := Num.div (Num.div apr 100) 12.

(** ** order_debts *)

(** [strategy.startswith("Snowball")] *)
Definition is_snowball (strategy : string) : bool :=
  String.prefix "Snowball" strategy.

(** Python's [sorted] is stable; with [reverse=True] it sorts in
    descending key order and still keeps equal keys in their input
    order.  A stable insertion sort over the keyed indices yields the same
    list. *)
Definition goes_before (reverse : bool) (x y : nat * Q) : bool :=
  if reverse then Num.leb (snd y) (snd x) else Num.leb (snd x) (snd y).

Fixpoint insert_sorted (reverse : bool) (x : nat * Q) (l : list (nat * Q))
  : list (nat * Q) :=
  match l with
  | [] => [x]
  | y :: l' =>
      if goes_before reverse x y then x :: y :: l'
      else y :: insert_sorted reverse x l'
  end.

Definition sorted (reverse : bool) (l : list (nat * Q)) : list (nat * Q) :=
  foldr (insert_sorted reverse) [] l.

(** The indices [range(len(debts))] paired with their sort key. *)
Definition keyed (key : Debt -> Q) (ds : list Debt) : list (nat * Q) :=
  imap (fun i d => (i, key d)) ds.

Definition order_debts (ds : list Debt) (strategy : string) : list nat :=
  if is_snowball strategy
  then (sorted false (keyed balance ds)).*1
  else (sorted true (keyed apr_pct ds)).*1.

(** ** One simulated month *)

(** Step 1, one debt: accrue interest unless the balance is [<= 0]. *)
Definition accrue (d : Debt) : Debt * Q :=
  if Num.leb (balance d) 0 then (d, 0%Q)
  else
    let r := monthly_rate (apr_pct d) in
    let interest := Num.mul (balance d) r in
    (set_balance d (Num.add (balance d) interest), interest).

(** Step 2: pay the minimums, threading [remaining_budget]. *)
Fixpoint pay_minimums (ds : list Debt) (remaining_budget : Q)
  : list Debt * list Q * Q :=
  match ds with
  | [] => ([], [], remaining_budget)
  | d :: ds' =>
      if Num.leb (balance d) 0 then
        let '(ds2, payments, rb) := pay_minimums ds' remaining_budget in
        (d :: ds2, 0%Q :: payments, rb)
      else
        let pay := Num.min (min_pay d) (balance d) in
        let '(ds2, payments, rb) :=
          pay_minimums ds' (Num.sub remaining_budget pay) in
        (set_balance d (Num.sub (balance d) pay) :: ds2,
         Num.add 0 pay :: payments, rb)
  end.

(** Step 3: walk [order]; the first debt above [epsilon] takes the extra
    payment and the walk stops ([break]).  [order] holds positions of
    [ds] only, so the lookup always succeeds. *)
Fixpoint waterfall (order : list nat) (ds : list Debt) (payments : list Q)
  (remaining_budget : Q) : list Debt * list Q * Q :=
  match order with
  | [] => (ds, payments, remaining_budget)
  | idx :: rest =>
      match ds !! idx with
      | Some d =>
          if Num.ltb epsilon (balance d) then
            let extra := Num.min remaining_budget (balance d) in
            (<[idx := set_balance d (Num.sub (balance d) extra)]> ds,
             alter (fun p => Num.add p extra) idx payments,
             Num.sub remaining_budget extra)
          else waterfall rest ds payments remaining_budget
      | None => waterfall rest ds payments remaining_budget
      end
  end.

Definition allocate_extra (order : list nat) (ds : list Debt)
  (payments : list Q) (remaining_budget : Q) : list Debt * list Q * Q :=
  if Num.ltb 0 remaining_budget
  then waterfall order ds payments remaining_budget
  else (ds, payments, remaining_budget).

(** [paid_off_month[i] is None] *)
Definition is_unset (pom : gmap nat (option nat)) (i : nat) : bool :=
  match pom !! i with
  | Some None => true
  | _ => false
  end.

(** Step 4: mark payoffs, from position [i] on. *)
Fixpoint mark_payoffs (m : nat) (i : nat) (ds : list Debt)
  (pom : gmap nat (option nat)) : list Debt * gmap nat (option nat) :=
  match ds with
  | [] => ([], pom)
  | d :: ds' =>
      if Num.leb (balance d) epsilon && is_unset pom i then
        let '(ds4, pom') := mark_payoffs m (S i) ds' (<[i := Some m]> pom) in
        (set_balance d 0%Q :: ds4, pom')
      else
        let '(ds4, pom') := mark_payoffs m (S i) ds' pom in
        (d :: ds4, pom')
  end.

(** A cell of a snapshot row: the month number or an amount. *)
Inductive Cell :=
| CInt (n : nat)
| CNum (q : Q).

Definition balance_key (d : Debt) : string := name d +:+ " — Balance ($)".
Definition paid_key (d : Debt) : string := name d +:+ " — Paid This Month ($)".

(** The snapshot dictionary of one month. *)
Definition snapshot (m : nat) (remaining_budget total : Q)
  (ds : list Debt) (payments : list Q) : gmap string Cell :=
  foldl
    (fun row '(d, p) =>
       <[paid_key d := CNum (Num.round2 p)]>
         (<[balance_key d := CNum (Num.round2 (balance d))]> row))
    (<["Total Interest Accrued To Date ($)"%string := CNum (Num.round2 total)]>
       (<["Remaining Budget ($)"%string := CNum (Num.round2 remaining_budget)]>
          (<["Month"%string := CInt m]> ∅)))
    (zip ds payments).

(** The variables the loop of [simulate] updates. *)
Record State := mkState {
  debts : list Debt;
  month : nat;
  rows : list (gmap string Cell);
  total_interest : Q;
  paid_off_month : gmap nat (option nat)
}.

(** What one pass of the loop body computes before it is stored. *)
Record Month := mkMonth {
  interests : list Q;
  after_interest : list Debt;
  after_minimums : list Debt;
  min_payments : list Q;
  after_waterfall : list Debt;
  payments : list Q;
  remaining : Q
}.

Definition month_body (monthly_budget : Q) (order : list nat)
  (ds : list Debt) : Month :=
  let ds1 := (fst ∘ accrue) <$> ds in
  let ints := (snd ∘ accrue) <$> ds in
  let '(ds2, pays, rb) := pay_minimums ds1 monthly_budget in
  let '(ds3, pays', rb') := allocate_extra order ds2 pays rb in
  mkMonth ints ds1 ds2 pays ds3 pays' rb'.

Definition month_step (monthly_budget : Q) (order : list nat)
  (st : State) : State :=
  let m := S (month st) in
  let b := month_body monthly_budget order (debts st) in
  let '(ds4, pom) := mark_payoffs m 0 (after_waterfall b) (paid_off_month st) in
  let total := Num.add (total_interest st) (Num.sum (interests b)) in
  mkState ds4 m
    (rows st ++ [snapshot m (remaining b) total ds4 (payments b)])
    total pom.

(** ** simulate *)

(** [sum(d.balance > 0.005 for d in debts)] *)
Definition count_unpaid (ds : list Debt) : nat :=
  length (filter (fun d => Num.ltb epsilon (balance d) = true) ds).

(** The [while] condition. *)
Definition keep_going (st : State) : bool :=
  (0 <? count_unpaid (debts st))%nat && (month st <? horizon)%nat.

(** The [while] loop.  [fuel] only makes the recursion structural: the
    month counter rises by one per pass and the condition fails at
    [horizon], so [horizon] units of fuel are never used up
    (see [loop_stops]). *)
Fixpoint loop (fuel : nat) (monthly_budget : Q) (order : list nat)
  (st : State) : State :=
  if keep_going st then
    match fuel with
    | O => st
    | S fuel' => loop fuel' monthly_budget order
                   (month_step monthly_budget order st)
    end
  else st.

Inductive Message :=
| InputsNonNegative
| BudgetPositive
| BudgetBelowMinimums (monthly_budget min_sum : Q).

Inductive Exception :=
| AssertionError
| ValueError (msg : Message).

Record Result := mkResult {
  months : nat;
  total_interest_2 : Q;
  paid_off_months : gmap string (option nat)
}.

(** Equality of outcomes is decidable, so two runs can be compared by
    computation. *)
#[global] Instance Q_eq_dec : EqDecision Q.
Proof. solve_decision. Defined.

#[global] Instance Cell_eq_dec : EqDecision Cell.
Proof. solve_decision. Defined.

#[global] Instance Result_eq_dec : EqDecision Result.
Proof. solve_decision. Defined.

#[global] Instance Message_eq_dec : EqDecision Message.
Proof. solve_decision. Defined.

#[global] Instance Exception_eq_dec : EqDecision Exception.
Proof. solve_decision. Defined.

(** [{i: None for i in range(n)}] *)
Definition unset_all (n : nat) : gmap nat (option nat) :=
  foldl (fun pom i => <[i := None]> pom) ∅ (seq 0 n).

Definition init_state (ds : list Debt) : State :=
  mkState ds 0 [] 0%Q (unset_all (length ds)).

(** [{debts[i].name: paid_off_month[i] for i in range(n)}] *)
Definition by_name (ds : list Debt) (pom : gmap nat (option nat))
  : gmap string (option nat) :=
  foldl (fun res '(i, d) => <[name d := default None (pom !! i)]> res)
    ∅ (imap (fun i d => (i, d)) ds).

Definition negative_input (d : Debt) : bool :=
  Num.ltb (balance d) 0 || Num.ltb (min_pay d) 0 || Num.ltb (apr_pct d) 0.

(** [sum(d.min_pay for d in debts)], an exact sum here; the program's
    is rounded to binary64, so no claim below is stated on its value. *)
Definition min_sum (ds : list Debt) : Q := Num.sum (min_pay <$> ds).

Definition final_state (ds : list Debt) (monthly_budget : Q)
  (strategy : string) : State :=
  loop horizon monthly_budget (order_debts ds strategy) (init_state ds).

Definition result_of (st : State) : Result :=
  mkResult (month st) (Num.round2 (total_interest st))
    (by_name (debts st) (paid_off_month st)).

(** The parameter [extra_rollover] of the source is never read and is
    left out. *)
Definition simulate (debts_in : list Debt) (monthly_budget : Q)
  (strategy : string) : Exception + (list (gmap string Cell) * Result) :=
  let n := length debts_in in
  if negb (0 <? n)%nat then inl AssertionError
  else if existsb negative_input debts_in then inl (ValueError InputsNonNegative)
  else if Num.leb monthly_budget 0 then inl (ValueError BudgetPositive)
  else if Num.ltb monthly_budget (min_sum debts_in)
  then inl (ValueError (BudgetBelowMinimums monthly_budget (min_sum debts_in)))
  else
    let st := final_state debts_in monthly_budget strategy in
    inr (rows st, result_of st).

Definition snowball : string := "Snowball (Smallest Balance First)".
Definition avalanche : string := "Avalanche (Highest APR First)".

(** ** The comparison run by the page

    The body of [if submitted:] runs [simulate] for the chosen strategy and
    then for the other one, on the same debts and budget.  A [ValueError]
    of either run is caught and shown as an error message; any other
    exception is not caught. *)

Definition other_strategy (strategy_choice : string) : string :=
  if is_snowball strategy_choice then avalanche else snowball.

Inductive Page :=
| ShowError (msg : Message)
| ShowComparison (chosen other : list (gmap string Cell) * Result)
| Uncaught (e : Exception).

Definition shown (run : Exception + (list (gmap string Cell) * Result))
  (k : list (gmap string Cell) * Result -> Page) : Page :=
  match run with
  | inl (ValueError msg) => ShowError msg
  | inl e => Uncaught e
  | inr out => k out
  end.

Definition compare (debts_list : list Debt) (monthly_budget : Q)
  (strategy_choice : string) : Page :=
  shown (simulate debts_list monthly_budget strategy_choice) (fun chosen =>
  shown (simulate debts_list monthly_budget (other_strategy strategy_choice))
    (fun other => ShowComparison chosen other)).

(** ** Specification vocabulary *)

(** The inputs [simulate] accepts. *)
Definition valid (ds : list Debt) (monthly_budget : Q) : Prop :=
  ds ≠ [] ∧
  Forall (fun d => 0 <= balance d ∧ 0 <= min_pay d ∧ 0 <= apr_pct d)%Q ds ∧
  (0 < monthly_budget)%Q ∧
  (min_sum ds <= monthly_budget)%Q.

(** The states the loop passes through, one [month_step] per pass. *)
Inductive reachable (monthly_budget : Q) (order : list nat) (st0 : State)
  : State -> Prop :=
| reach_start : reachable monthly_budget order st0 st0
| reach_month st :
    reachable monthly_budget order st0 st ->
    keep_going st = true ->
    reachable monthly_budget order st0 (month_step monthly_budget order st).

(** The states of the run of [simulate] on an input. *)
Definition in_run (ds : list Debt) (monthly_budget : Q) (strategy : string)
  (st : State) : Prop :=
  reachable monthly_budget (order_debts ds strategy) (init_state ds) st.

(** The debt the waterfall of a month pays extra to, if any: the first
    position of [order] whose balance is above [epsilon]. *)
Definition above_epsilon (ds : list Debt) (idx : nat) : bool :=
  match ds !! idx with
  | Some d => Num.ltb epsilon (balance d)
  | None => false
  end.

Definition waterfall_target (order : list nat) (ds : list Debt) : option nat :=
  List.find (above_epsilon ds) order.

(** [targets_before strategy ds j k]: on the month-0 values [ds], debt [j]
    is ahead of debt [k] in the strategy's order, the earlier position
    winning ties. *)
Definition targets_before (strategy : string) (ds : list Debt) (j k : nat)
  : Prop :=
  ∃ dj dk, ds !! j = Some dj ∧ ds !! k = Some dk ∧
    if is_snowball strategy
    then (balance dj < balance dk ∨ (balance dj == balance dk ∧ (j < k)%nat))%Q
    else (apr_pct dk < apr_pct dj ∨ (apr_pct dj == apr_pct dk ∧ (j < k)%nat))%Q.

(** What stays fixed in a debt during a run. *)
Definition static (d : Debt) : string * Q * Q := (name d, apr_pct d, min_pay d).

(** ** Vocabulary of the proofs *)

Section Vocabulary.
Local Open Scope Q_scope.

(** Step 2 seen from one debt. *)
Definition min_paid (d : Debt) : Q :=
  if Num.leb (balance d) 0 then 0%Q
  else Num.add 0 (Num.min (min_pay d) (balance d)).

Definition after_min (d : Debt) : Debt :=
  if Num.leb (balance d) 0 then d
  else set_balance d (Num.sub (balance d) (Num.min (min_pay d) (balance d))).

(** Step 4 seen from one debt: it is marked when its balance is at most
    [epsilon] and its payoff month is still unset. *)
Definition marked (pom : gmap nat (option nat)) (j : nat) (d : Debt) : bool :=
  Num.leb (balance d) epsilon && is_unset pom j.

(** One row per simulated month, numbered from 1. *)
Definition rows_numbered (st : State) : Prop :=
  length (rows st) = month st ∧
  ∀ k row, rows st !! k = Some row ->
    row !! "Month"%string = Some (CInt (S k)).

Definition nonneg (d : Debt) : Prop := 0 <= balance d.

(** Non-negative rate and minimum payment, read off [static]. *)
Definition terms_ok (s : string * Q * Q) : Prop := 0 <= s.1.2 ∧ 0 <= s.2.

(** Every recorded payoff month lies between 1 and the current month,
    and the debt it belongs to has balance exactly 0. *)
Definition settled (st : State) : Prop :=
  ∀ i k, paid_off_month st !! i = Some (Some k) ->
    (1 <= k <= month st)%nat ∧
    ∃ d, debts st !! i = Some d ∧ balance d = 0.

(** The order [sorted] puts keyed positions in: by key (descending when
    [reverse]), the smaller position first among equal keys. *)
Definition pair_before (reverse : bool) (x y : nat * Q) : Prop :=
  (if reverse then y.2 < x.2 else x.2 < y.2)
  ∨ (x.2 == y.2 ∧ (x.1 < y.1)%nat).

(** One assignment of the dictionary comprehension. *)
Definition assign (pom : gmap nat (option nat))
  (res : gmap string (option nat)) (x : nat * Debt)
  : gmap string (option nat) :=
  <[name x.2 := default None (pom !! x.1)]> res.

End Vocabulary.

(** ** Example inputs

    Amounts are whole numbers and, where a run is computed to its end,
    the rates are 0, so that the arithmetic is the same in binary floats. *)

Definition one_loan : list Debt := [mkDebt "Loan" 1200 0 100].

Definition underfunded : list Debt := [mkDebt "Card" 300 12 50].

Definition two_cards : list Debt :=
  [mkDebt "A" 500 25 20; mkDebt "B" 2000 5 40].

Definition small_loan : list Debt := [mkDebt "Loan" 100 0 100].

Definition with_cleared : list Debt :=
  [mkDebt "Cleared" 0 10 0; mkDebt "Card" 100 0 50].

Definition four_debts : list Debt :=
  [mkDebt "A" 5 25 20; mkDebt "B" 2 5 40; mkDebt "C" 5 25 1;
   mkDebt "D" 2 30 1].





Definition dust : list Debt := [mkDebt "Dust" (1 # 1000) 20 0].

Ltac valid_by_computation :=
  unfold valid; split; [discriminate|]; split;
  [repeat constructor; vm_compute; discriminate|];
  split; vm_compute; (reflexivity || discriminate).

(** * Properties *)

(** ** Arithmetic *)

Section NumFacts.
Local Open Scope Q_scope.

Lemma add_correct a b : Num.add a b == a + b.
Proof. apply Qred_correct. Qed.

Lemma sub_correct a b : Num.sub a b == a - b.
Proof. apply Qred_correct. Qed.

Lemma mul_correct a b : Num.mul a b == a * b.
Proof. apply Qred_correct. Qed.

Lemma div_correct a b : Num.div a b == a / b.
Proof. apply Qred_correct. Qed.

Lemma leb_true a b : Num.leb a b = true <-> a <= b.
Proof. apply Qle_bool_iff. Qed.

Lemma leb_false a b : Num.leb a b = false <-> b < a.
Proof.
  unfold Num.leb. rewrite <- not_true_iff_false, Qle_bool_iff.
  split; [apply Qnot_le_lt | apply Qlt_not_le].
Qed.

Lemma ltb_true a b : Num.ltb a b = true <-> a < b.
Proof. unfold Num.ltb. rewrite negb_true_iff. apply leb_false. Qed.

Lemma ltb_false a b : Num.ltb a b = false <-> b <= a.
Proof. unfold Num.ltb. rewrite negb_false_iff. apply leb_true. Qed.

Lemma min_cases a b :
  (b < a ∧ Num.min a b = b) ∨ (a <= b ∧ Num.min a b = a).
Proof.
  unfold Num.min. destruct (Num.ltb b a) eqn:E.
  - left. split; [by apply ltb_true | done].
  - right. split; [by apply ltb_false | done].
Qed.


Lemma min_le_r a b : Num.min a b <= b.
Proof. destruct (min_cases a b) as [[? ->]|[? ->]]; lra. Qed.

Lemma min_nonneg a b : 0 <= a -> 0 <= b -> 0 <= Num.min a b.
Proof. intros. destruct (min_cases a b) as [[? ->]|[? ->]]; lra. Qed.

Lemma fold_add_shift xs a :
  fold_left Num.add xs a == a + fold_left Num.add xs 0.
Proof.
  revert a. induction xs as [|x xs IH]; intros a; simpl.
  - lra.
  - rewrite (IH (Num.add a x)), (IH (Num.add 0 x)), !add_correct. lra.
Qed.

Lemma sum_nil : Num.sum [] = 0.
Proof. reflexivity. Qed.

Lemma sum_cons x xs : Num.sum (x :: xs) == x + Num.sum xs.
Proof.
  unfold Num.sum. simpl. rewrite fold_add_shift, add_correct. lra.
Qed.

Lemma sum_nonneg xs : Forall (fun x => 0 <= x) xs -> 0 <= Num.sum xs.
Proof.
  induction 1 as [|x xs Hx _ IH]; [rewrite sum_nil; lra|].
  rewrite sum_cons. lra.
Qed.

Lemma monthly_rate_correct apr : monthly_rate apr == apr / 1200.
Proof.
  unfold monthly_rate. rewrite !div_correct. field.
Qed.

Lemma monthly_rate_nonneg apr : 0 <= apr -> 0 <= monthly_rate apr.
Proof.
  intros H. rewrite monthly_rate_correct.
  apply Qle_shift_div_l; lra.
Qed.

Lemma epsilon_pos : 0 < epsilon.
Proof. reflexivity. Qed.

End NumFacts.

(** ** The steps of a month, position by position *)

Section Steps.
Local Open Scope Q_scope.

Lemma pay_minimums_debts ds rb : (pay_minimums ds rb).1.1 = after_min <$> ds.
Proof.
  revert rb. induction ds as [|d ds IH]; intros rb; simpl; [done|].
  unfold after_min at 1.
  destruct (Num.leb (balance d) 0).
  - specialize (IH rb). destruct (pay_minimums ds rb) as [[? ?] ?].
    simpl in *. by rewrite IH.
  - specialize (IH (Num.sub rb (Num.min (min_pay d) (balance d)))).
    destruct (pay_minimums ds _) as [[? ?] ?]. simpl in *. by rewrite IH.
Qed.

Lemma pay_minimums_payments ds rb :
  (pay_minimums ds rb).1.2 = min_paid <$> ds.
Proof.
  revert rb. induction ds as [|d ds IH]; intros rb; simpl; [done|].
  unfold min_paid at 1.
  destruct (Num.leb (balance d) 0).
  - specialize (IH rb). destruct (pay_minimums ds rb) as [[? ?] ?].
    simpl in *. by rewrite IH.
  - specialize (IH (Num.sub rb (Num.min (min_pay d) (balance d)))).
    destruct (pay_minimums ds _) as [[? ?] ?]. simpl in *. by rewrite IH.
Qed.

Lemma pay_minimums_remaining ds rb :
  (pay_minimums ds rb).2 == rb - Num.sum (min_paid <$> ds).
Proof.
  revert rb. induction ds as [|d ds IH]; intros rb.
  - simpl. rewrite sum_nil. lra.
  - rewrite fmap_cons, sum_cons. unfold min_paid at 1.
    cbn [pay_minimums].
    destruct (Num.leb (balance d) 0).
    + specialize (IH rb). destruct (pay_minimums ds rb) as [[? ?] ?].
      simpl in *. rewrite IH. lra.
    + specialize (IH (Num.sub rb (Num.min (min_pay d) (balance d)))).
      destruct (pay_minimums ds _) as [[? ?] ?]. simpl in *.
      rewrite IH, add_correct, sub_correct. lra.
Qed.

(** Step 3 in terms of its target. *)
Lemma waterfall_no_target order ds ps rb :
  waterfall_target order ds = None ->
  waterfall order ds ps rb = (ds, ps, rb).
Proof.
  unfold waterfall_target.
  induction order as [|idx order IH]; simpl; [done|].
  unfold above_epsilon at 1.
  destruct (ds !! idx) as [d|]; [|exact IH].
  destruct (Num.ltb epsilon (balance d)); [done | exact IH].
Qed.

Lemma waterfall_on_target order ds ps rb j :
  waterfall_target order ds = Some j ->
  ∃ d, ds !! j = Some d ∧ epsilon < balance d ∧
    waterfall order ds ps rb =
      (<[j := set_balance d
                (Num.sub (balance d) (Num.min rb (balance d)))]> ds,
       alter (fun p => Num.add p (Num.min rb (balance d))) j ps,
       Num.sub rb (Num.min rb (balance d))).
Proof.
  unfold waterfall_target.
  induction order as [|idx order IH]; simpl; [done|].
  unfold above_epsilon at 1.
  destruct (ds !! idx) as [d|] eqn:Hd; [|exact IH].
  destruct (Num.ltb epsilon (balance d)) eqn:Hb; [|exact IH].
  intros [= <-]. exists d. by rewrite ltb_true in Hb.
Qed.

Lemma waterfall_target_above order ds j :
  waterfall_target order ds = Some j ->
  j ∈ order ∧ ∃ d, ds !! j = Some d ∧ epsilon < balance d.
Proof.
  intros H. apply find_some in H as [Hin Hab]. split.
  - by apply list_elem_of_In.
  - unfold above_epsilon in Hab. destruct (ds !! j) as [d|]; [|done].
    exists d. by rewrite ltb_true in Hab.
Qed.

(** The fields of [month_body], one at a time. *)
Lemma month_body_eq budget order ds :
  month_body budget order ds =
    let ds1 := (fst ∘ accrue) <$> ds in
    let p := pay_minimums ds1 budget in
    let a := allocate_extra order p.1.1 p.1.2 p.2 in
    mkMonth ((snd ∘ accrue) <$> ds) ds1 p.1.1 p.1.2 a.1.1 a.1.2 a.2.
Proof.
  unfold month_body. cbv zeta.
  destruct (pay_minimums _ _) as [[ds2 ps] rb]. simpl.
  by destruct (allocate_extra order ds2 ps rb) as [[? ?] ?].
Qed.

Lemma interests_eq budget order ds :
  interests (month_body budget order ds) = (snd ∘ accrue) <$> ds.
Proof. by rewrite month_body_eq. Qed.

Lemma after_interest_eq budget order ds :
  after_interest (month_body budget order ds) = (fst ∘ accrue) <$> ds.
Proof. by rewrite month_body_eq. Qed.

Lemma after_minimums_eq budget order ds :
  after_minimums (month_body budget order ds)
  = after_min <$> ((fst ∘ accrue) <$> ds).
Proof. rewrite month_body_eq. simpl. apply pay_minimums_debts. Qed.

Lemma min_payments_eq budget order ds :
  min_payments (month_body budget order ds)
  = min_paid <$> ((fst ∘ accrue) <$> ds).
Proof. rewrite month_body_eq. simpl. apply pay_minimums_payments. Qed.

Lemma allocation_eq budget order ds :
  let b := month_body budget order ds in
  (after_waterfall b, payments b, remaining b)
  = allocate_extra order (after_minimums b) (min_payments b)
      (pay_minimums (after_interest b) budget).2.
Proof.
  rewrite month_body_eq. simpl.
  by destruct (allocate_extra _ _ _ _) as [[? ?] ?].
Qed.

End Steps.

Section Marking.
Implicit Types (pom : gmap nat (option nat)) (ds : list Debt).

Lemma is_unset_insert_ne pom i j v :
  i ≠ j -> is_unset (<[i := v]> pom) j = is_unset pom j.
Proof. intros H. unfold is_unset. by rewrite lookup_insert_ne. Qed.

Lemma mark_payoffs_length m s ds pom :
  length (mark_payoffs m s ds pom).1 = length ds.
Proof.
  revert s pom. induction ds as [|d ds IH]; intros s pom; simpl; [done|].
  destruct (_ && _).
  - specialize (IH (S s) (<[s := Some m]> pom)).
    destruct (mark_payoffs _ _ _ _). simpl in *. by rewrite IH.
  - specialize (IH (S s) pom).
    destruct (mark_payoffs _ _ _ _). simpl in *. by rewrite IH.
Qed.

Lemma mark_payoffs_outside m s ds pom j :
  (j < s ∨ s + length ds ≤ j)%nat ->
  (mark_payoffs m s ds pom).2 !! j = pom !! j.
Proof.
  revert s pom. induction ds as [|d ds IH]; intros s pom Hj; simpl; [done|].
  simpl in Hj.
  destruct (_ && _).
  - specialize (IH (S s) (<[s := Some m]> pom)).
    destruct (mark_payoffs _ _ _ _). simpl in *.
    rewrite IH by lia. apply lookup_insert_ne. lia.
  - specialize (IH (S s) pom).
    destruct (mark_payoffs _ _ _ _). simpl in *. apply IH. lia.
Qed.

Lemma mark_payoffs_at m s ds pom i d :
  ds !! i = Some d ->
  (mark_payoffs m s ds pom).1 !! i
    = Some (if marked pom (s + i) d then set_balance d 0%Q else d)
  ∧ (mark_payoffs m s ds pom).2 !! (s + i)%nat
    = if marked pom (s + i) d then Some (Some m) else pom !! (s + i)%nat.
Proof.
  revert s pom i. induction ds as [|d0 ds IH]; intros s pom i Hd; [done|].
  destruct i as [|i]; simpl in Hd.
  - injection Hd as ->. rewrite Nat.add_0_r. cbn [mark_payoffs].
    fold (marked pom s d). destruct (marked pom s d) eqn:Hc.
    + pose proof (mark_payoffs_outside m (S s) ds (<[s := Some m]> pom) s)
        as Hout.
      destruct (mark_payoffs _ _ _ _). simpl in *. split; [done|].
      rewrite Hout by lia. apply lookup_insert_eq.
    + pose proof (mark_payoffs_outside m (S s) ds pom s) as Hout.
      destruct (mark_payoffs _ _ _ _). simpl in *. split; [done|].
      apply Hout. lia.
  - rewrite Nat.add_succ_r. cbn [mark_payoffs].
    fold (marked pom s d0). destruct (marked pom s d0).
    + destruct (IH (S s) (<[s := Some m]> pom) i Hd) as [H1 H2].
      destruct (mark_payoffs _ _ _ _). simpl in *.
      unfold marked in *.
      rewrite is_unset_insert_ne in H1, H2 by lia.
      rewrite lookup_insert_ne in H2 by lia. done.
    + destruct (IH (S s) pom i Hd) as [H1 H2].
      destruct (mark_payoffs _ _ _ _). simpl in *. done.
Qed.

End Marking.

(** ** What a month leaves unchanged *)

Section Frame.
Implicit Types (ds : list Debt) (d : Debt).

Lemma static_set_balance d b : static (set_balance d b) = static d.
Proof. done. Qed.

Lemma static_accrue d : static (accrue d).1 = static d.
Proof. unfold accrue. by destruct (Num.leb _ _). Qed.

Lemma static_after_min d : static (after_min d) = static d.
Proof. unfold after_min. by destruct (Num.leb _ _). Qed.

Lemma static_fields d d' :
  static d = static d' ->
  name d = name d' ∧ apr_pct d = apr_pct d' ∧ min_pay d = min_pay d'.
Proof. unfold static. by intros [= -> -> ->]. Qed.

Lemma static_mark_payoffs m s ds pom :
  static <$> (mark_payoffs m s ds pom).1 = static <$> ds.
Proof.
  revert s pom. induction ds as [|d ds IH]; intros s pom; [done|].
  cbn [mark_payoffs]. destruct (_ && _).
  - specialize (IH (S s) (<[s := Some m]> pom)).
    destruct (mark_payoffs _ _ _ _). cbn [fst] in *.
    by rewrite !fmap_cons, IH.
  - specialize (IH (S s) pom).
    destruct (mark_payoffs _ _ _ _). cbn [fst] in *.
    by rewrite !fmap_cons, IH.
Qed.

Lemma allocate_extra_cases order ds ps rb :
  allocate_extra order ds ps rb = (ds, ps, rb)
  ∨ ∃ j d, (0 < rb)%Q ∧ waterfall_target order ds = Some j ∧
      ds !! j = Some d ∧ (epsilon < balance d)%Q ∧
      allocate_extra order ds ps rb =
        (<[j := set_balance d
                  (Num.sub (balance d) (Num.min rb (balance d)))]> ds,
         alter (fun p => Num.add p (Num.min rb (balance d))) j ps,
         Num.sub rb (Num.min rb (balance d))).
Proof.
  unfold allocate_extra. destruct (Num.ltb 0 rb) eqn:Hrb; [|by left].
  destruct (waterfall_target order ds) as [j|] eqn:Ht.
  - right. destruct (waterfall_on_target order ds ps rb j Ht)
      as (d & Hd & Hb & Hw).
    exists j, d. by rewrite ltb_true in Hrb.
  - left. by apply waterfall_no_target.
Qed.

Lemma static_allocate_extra order ds ps rb :
  static <$> (allocate_extra order ds ps rb).1.1 = static <$> ds.
Proof.
  destruct (allocate_extra_cases order ds ps rb)
    as [->|(j & d & _ & _ & Hd & _ & ->)]; [done|]. simpl.
  rewrite list_fmap_insert. apply list_insert_id.
  by rewrite list_lookup_fmap, Hd.
Qed.

Lemma static_month_body budget order ds :
  static <$> after_waterfall (month_body budget order ds) = static <$> ds.
Proof.
  rewrite month_body_eq. cbv zeta. cbn [after_waterfall].
  rewrite static_allocate_extra, pay_minimums_debts.
  rewrite <- !list_fmap_compose. apply list_fmap_ext.
  intros i d _. simpl. by rewrite static_after_min, static_accrue.
Qed.

(** The fields of the next state. *)
Lemma month_step_eq budget order st :
  month_step budget order st =
    let m := S (month st) in
    let b := month_body budget order (debts st) in
    let mk := mark_payoffs m 0 (after_waterfall b) (paid_off_month st) in
    let total := Num.add (total_interest st) (Num.sum (interests b)) in
    mkState mk.1 m
      (rows st ++ [snapshot m (remaining b) total mk.1 (payments b)])
      total mk.2.
Proof. unfold month_step. cbv zeta. by destruct (mark_payoffs _ _ _ _). Qed.

Lemma static_month_step budget order st :
  static <$> debts (month_step budget order st) = static <$> debts st.
Proof.
  rewrite month_step_eq. cbv zeta. cbn [debts].
  by rewrite static_mark_payoffs, static_month_body.
Qed.

Lemma month_month_step budget order st :
  month (month_step budget order st) = S (month st).
Proof. by rewrite month_step_eq. Qed.

Lemma reachable_static budget order st0 st :
  reachable budget order st0 st ->
  static <$> debts st = static <$> debts st0.
Proof.
  induction 1 as [|st _ IH _]; [done|]. by rewrite static_month_step.
Qed.

Lemma reachable_length budget order st0 st :
  reachable budget order st0 st -> length (debts st) = length (debts st0).
Proof.
  intros H. apply reachable_static in H.
  by rewrite <- (length_fmap static), H, length_fmap.
Qed.


Lemma reachable_trans budget order st0 st1 st2 :
  reachable budget order st0 st1 ->
  reachable budget order st1 st2 ->
  reachable budget order st0 st2.
Proof.
  intros H1 H2. induction H2 as [|st _ IH Hk]; [done|].
  by apply reach_month.
Qed.

End Frame.

(** ** The loop and the outcome of simulate *)

Section Loop.
Local Open Scope Q_scope.

Lemma loop_reachable fuel budget order st0 st :
  reachable budget order st0 st ->
  reachable budget order st0 (loop fuel budget order st).
Proof.
  revert st. induction fuel as [|fuel IH]; intros st H; simpl.
  - by destruct (keep_going st).
  - destruct (keep_going st) eqn:Hk; [|done].
    apply IH. by apply reach_month.
Qed.





Lemma negative_input_false d :
  negative_input d = false <->
  0 <= balance d ∧ 0 <= min_pay d ∧ 0 <= apr_pct d.
Proof.
  unfold negative_input. rewrite !orb_false_iff, !ltb_false. tauto.
Qed.

Lemma negative_input_true d :
  negative_input d = true <->
  balance d < 0 ∨ min_pay d < 0 ∨ apr_pct d < 0.
Proof.
  unfold negative_input. rewrite !orb_true_iff, !ltb_true. tauto.
Qed.

Lemma simulate_valid ds budget strategy :
  valid ds budget ->
  simulate ds budget strategy =
    inr (rows (final_state ds budget strategy),
         result_of (final_state ds budget strategy)).
Proof.
  intros (Hne & Hall & Hb & Hsum). unfold simulate.
  destruct ds as [|d ds]; [done|]. cbn [length Nat.ltb Nat.leb negb].
  replace (existsb negative_input (d :: ds)) with false.
  2:{ symmetry. apply not_true_iff_false. intros Hex.
      apply existsb_exists in Hex as (x & Hin & Hx).
      apply list_elem_of_In in Hin.
      rewrite Forall_forall in Hall. specialize (Hall x Hin).
      apply negative_input_false in Hall. congruence. }
  apply leb_false in Hb. rewrite Hb.
  apply ltb_false in Hsum. by rewrite Hsum.
Qed.

Lemma simulate_assertion ds budget strategy :
  simulate ds budget strategy = inl AssertionError <-> ds = [].
Proof.
  split; [|by intros ->].
  destruct ds as [|d ds]; [done|]. unfold simulate.
  cbn [length Nat.ltb Nat.leb negb].
  repeat destruct (_ : bool); discriminate.
Qed.

End Loop.

(** ** Snapshots *)

Section Rows.

Lemma length_append (a b : string) :
  String.length (a +:+ b) = (String.length a + String.length b)%nat.
Proof. induction a as [|c a IH]; simpl; [done | by rewrite IH]. Qed.

Lemma balance_key_not_month d : balance_key d ≠ "Month"%string.
Proof.
  intros H. apply (f_equal String.length) in H.
  unfold balance_key in H. rewrite length_append in H. simpl in H. lia.
Qed.

Lemma paid_key_not_month d : paid_key d ≠ "Month"%string.
Proof.
  intros H. apply (f_equal String.length) in H.
  unfold paid_key in H. rewrite length_append in H. simpl in H. lia.
Qed.

Lemma snapshot_month m rb total ds ps :
  snapshot m rb total ds ps !! "Month"%string = Some (CInt m).
Proof.
  unfold snapshot.
  match goal with |- foldl ?f ?r0 ?l !! _ = _ =>
    assert (Hfold: ∀ l' r, foldl f r l' !! "Month"%string
                            = r !! "Month"%string)
  end.
  { induction l' as [|[d p] l' IH]; intros r; simpl; [done|].
    rewrite IH, lookup_insert_ne, lookup_insert_ne; [done|..].
    - apply balance_key_not_month.
    - apply paid_key_not_month. }
  rewrite Hfold. do 2 (rewrite lookup_insert_ne by done).
  apply lookup_insert_eq.
Qed.

Lemma rows_numbered_step budget order st :
  rows_numbered st -> rows_numbered (month_step budget order st).
Proof.
  intros [Hlen Hrows]. rewrite month_step_eq. cbv zeta.
  split; cbn [rows month].
  - rewrite length_app. simpl. lia.
  - intros k row Hk. apply lookup_app_Some in Hk as [Hk|[Hge Hk]].
    + by apply Hrows.
    + apply list_lookup_singleton_Some in Hk as [Hk <-].
      rewrite snapshot_month. do 2 f_equal. lia.
Qed.

Lemma rows_numbered_run ds budget strategy st :
  in_run ds budget strategy st -> rows_numbered st.
Proof.
  induction 1 as [|st _ IH _].
  - split; [done|]. intros k row Hk. done.
  - by apply rows_numbered_step.
Qed.

End Rows.

(** ** What simulate returns *)

Section Outcome.
Local Open Scope Q_scope.

(** C10: the empty debt list, and only it, fails the assertion [n > 0]
    of [simulate], whatever the budget and the strategy: the outcome is
    an [AssertionError], neither a result nor a [ValueError]. *)
Theorem empty_list_fails_assertion :
  (∀ budget strategy, simulate [] budget strategy = inl AssertionError) ∧
  (∀ ds budget strategy,
      simulate ds budget strategy = inl AssertionError -> ds = []).
Proof.
  split.
  - done.
  - intros ds budget strategy H. by apply simulate_assertion in H.
Qed.






(** Scenario A of the specification: 12 months, no interest. *)
Example one_loan_run :
  match simulate one_loan 100 snowball with
  | inr (df, res) =>
      length df = 12%nat ∧ months res = 12%nat ∧
      total_interest_2 res = 0 ∧
      paid_off_months res !! "Loan"%string = Some (Some 12%nat)
  | inl _ => False
  end.
Proof. vm_compute. repeat split. Qed.

End Outcome.

(** ** A month seen from one position *)

Section Pointwise.
Local Open Scope Q_scope.
Implicit Types (ds : list Debt) (d : Debt).

Lemma waterfall_target_lookup order ds j :
  waterfall_target order ds = Some j ->
  ∃ d, ds !! j = Some d ∧ epsilon < balance d.
Proof. intros H. by apply waterfall_target_above in H as [_ ?]. Qed.

(** Step 3 at position [i]: either nothing happens there, or [i] is the
    target and takes [min(remaining_budget, balance)]. *)
Lemma allocate_extra_at order ds ps rb i d p :
  ds !! i = Some d -> ps !! i = Some p ->
  let r := allocate_extra order ds ps rb in
  (r.1.1 !! i = Some d ∧ r.1.2 !! i = Some p ∧
   (waterfall_target order ds = Some i -> rb <= 0))
  ∨ (0 < rb ∧ waterfall_target order ds = Some i ∧ epsilon < balance d ∧
     r.1.1 !! i
       = Some (set_balance d (Num.sub (balance d) (Num.min rb (balance d))))
     ∧ r.1.2 !! i = Some (Num.add p (Num.min rb (balance d)))).
Proof.
  intros Hd Hp. cbv zeta.
  destruct (allocate_extra_cases order ds ps rb)
    as [E|(j & dj & Hrb & Ht & Hj & Hb & E)]; rewrite E; cbn [fst snd].
  - left. repeat split; [done..|]. intros Ht.
    unfold allocate_extra in E. destruct (Num.ltb 0 rb) eqn:Hrb.
    + destruct (waterfall_on_target order ds ps rb i Ht)
        as (d' & Hd' & Hb & Hw).
      rewrite Hw in E. injection E as E1 E2 E3.
      assert (d' = d) as -> by congruence.
      apply (f_equal (fun l => balance <$> l !! i)) in E1.
      rewrite list_lookup_insert_eq in E1
        by (by eapply lookup_lt_Some). rewrite Hd in E1.
      simpl in E1. injection E1 as E1.
      exfalso. apply ltb_true in Hrb.
      assert (balance d == balance d - Num.min rb (balance d)) as E4
        by (rewrite <- E1 at 1; apply sub_correct).
      pose proof epsilon_pos.
      destruct (min_cases rb (balance d)) as [[? Hm]|[? Hm]];
        rewrite Hm in E4; lra.
    + by apply ltb_false in Hrb.
  - destruct (decide (i = j)) as [->|Hne].
    + right. assert (dj = d) as -> by congruence.
      repeat split; [done..| |].
      * apply list_lookup_insert_eq. by eapply lookup_lt_Some.
      * by rewrite list_lookup_alter_eq, Hp.
    + left. repeat split.
      * by rewrite list_lookup_insert_ne.
      * by rewrite list_lookup_alter_ne.
      * intros Ht'. congruence.
Qed.

(** The whole month at position [i]. *)
Lemma month_body_at budget order ds i d :
  ds !! i = Some d ->
  let b := month_body budget order ds in
  let d1 := (accrue d).1 in
  let d2 := after_min d1 in
  let p := min_paid d1 in
  let rb := (pay_minimums (after_interest b) budget).2 in
  interests b !! i = Some (accrue d).2 ∧
  after_interest b !! i = Some d1 ∧
  after_minimums b !! i = Some d2 ∧
  min_payments b !! i = Some p ∧
  ((after_waterfall b !! i = Some d2 ∧ payments b !! i = Some p ∧
    (waterfall_target order (after_minimums b) = Some i -> rb <= 0))
   ∨ (0 < rb ∧ waterfall_target order (after_minimums b) = Some i ∧
      epsilon < balance d2 ∧
      after_waterfall b !! i
        = Some (set_balance d2
                  (Num.sub (balance d2) (Num.min rb (balance d2)))) ∧
      payments b !! i = Some (Num.add p (Num.min rb (balance d2))))).
Proof.
  intros Hd. cbv zeta.
  assert (H1 : after_interest (month_body budget order ds) !! i
               = Some (accrue d).1).
  { by rewrite after_interest_eq, list_lookup_fmap, Hd. }
  assert (H2 : after_minimums (month_body budget order ds) !! i
               = Some (after_min (accrue d).1)).
  { by rewrite after_minimums_eq, !list_lookup_fmap, Hd. }
  assert (H3 : min_payments (month_body budget order ds) !! i
               = Some (min_paid (accrue d).1)).
  { by rewrite min_payments_eq, !list_lookup_fmap, Hd. }
  split; [by rewrite interests_eq, list_lookup_fmap, Hd|].
  do 3 (split; [done|]).
  pose proof (allocation_eq budget order ds) as Ha. cbv zeta in Ha.
  pose proof (allocate_extra_at order _ _
                (pay_minimums (after_interest (month_body budget order ds))
                   budget).2 i _ _ H2 H3) as Hat.
  cbv zeta in Hat. rewrite <- Ha in Hat. exact Hat.
Qed.

End Pointwise.

(** ** Balances stay non-negative *)

Section NonNegative.
Local Open Scope Q_scope.
Implicit Types (ds : list Debt) (d : Debt).

Lemma accrue_grows d :
  0 <= apr_pct d -> nonneg d -> balance d <= balance (accrue d).1.
Proof.
  intros Hr Hb. unfold accrue. destruct (Num.leb (balance d) 0); [simpl; lra|].
  cbn [fst set_balance balance]. rewrite add_correct, mul_correct.
  pose proof (monthly_rate_nonneg _ Hr). unfold nonneg in Hb. nra.
Qed.

Lemma accrue_nonneg d : 0 <= apr_pct d -> nonneg d -> nonneg (accrue d).1.
Proof.
  intros Hr Hb. pose proof (accrue_grows d Hr Hb). unfold nonneg in *. lra.
Qed.

Lemma interest_nonneg d : 0 <= apr_pct d -> nonneg d -> 0 <= (accrue d).2.
Proof.
  intros Hr Hb. unfold accrue. destruct (Num.leb (balance d) 0); [simpl; lra|].
  cbn [snd]. rewrite mul_correct.
  pose proof (monthly_rate_nonneg _ Hr). unfold nonneg in Hb. nra.
Qed.

(** The minimum payment taken is [min(min_pay, balance)], and the
    balance goes down by exactly that much. *)
Lemma min_paid_spec d :
  0 <= min_pay d -> nonneg d ->
  min_paid d == Qmin (min_pay d) (balance d) ∧
  balance (after_min d) == balance d - min_paid d.
Proof.
  unfold nonneg, min_paid, after_min. intros Hm Hb.
  destruct (Num.leb (balance d) 0) eqn:E.
  - apply leb_true in E. split; [|lra].
    assert (balance d == 0) as E0 by lra. rewrite E0.
    symmetry. by apply Q.min_r.
  - apply leb_false in E. cbn [set_balance balance].
    rewrite add_correct, sub_correct.
    destruct (min_cases (min_pay d) (balance d)) as [[? ->]|[? ->]].
    + split; [|lra]. rewrite Q.min_r; lra.
    + split; [|lra]. rewrite Q.min_l; lra.
Qed.

Lemma after_min_nonneg d : 0 <= min_pay d -> nonneg d -> nonneg (after_min d).
Proof.
  intros Hm Hb. destruct (min_paid_spec d Hm Hb) as [E1 E2].
  unfold nonneg in *. rewrite E2, E1.
  pose proof (Q.le_min_r (min_pay d) (balance d)). lra.
Qed.

Lemma sub_min_nonneg rb d :
  nonneg d ->
  nonneg (set_balance d (Num.sub (balance d) (Num.min rb (balance d)))).
Proof.
  unfold nonneg. intros Hb. cbn [set_balance balance]. rewrite sub_correct.
  pose proof (min_le_r rb (balance d)). lra.
Qed.

Lemma allocate_extra_nonneg order ds ps rb :
  Forall nonneg ds -> Forall nonneg (allocate_extra order ds ps rb).1.1.
Proof.
  intros H.
  destruct (allocate_extra_cases order ds ps rb)
    as [->|(j & d & _ & _ & Hd & _ & ->)]; [done|]. cbn [fst].
  apply Forall_insert; [done|]. apply sub_min_nonneg.
  eapply Forall_lookup_1; eauto.
Qed.

Lemma mark_payoffs_Forall (P : Debt -> Prop) m s ds pom :
  (∀ d, P d -> P (set_balance d 0)) ->
  Forall P ds -> Forall P (mark_payoffs m s ds pom).1.
Proof.
  intros HP H. revert s pom.
  induction H as [|d ds Hd _ IH]; intros s pom; [by constructor|].
  cbn [mark_payoffs]. destruct (_ && _).
  - specialize (IH (S s) (<[s := Some m]> pom)).
    destruct (mark_payoffs _ _ _ _). constructor; [by apply HP | done].
  - specialize (IH (S s) pom).
    destruct (mark_payoffs _ _ _ _). by constructor.
Qed.

Lemma terms_ok_of_static ds ds' :
  static <$> ds = static <$> ds' ->
  Forall (fun d => 0 <= balance d ∧ 0 <= min_pay d ∧ 0 <= apr_pct d) ds' ->
  Forall (fun d => 0 <= apr_pct d ∧ 0 <= min_pay d) ds.
Proof.
  intros Hs Hv.
  assert (Forall terms_ok (static <$> ds')) as H.
  { apply Forall_fmap. eapply Forall_impl; [exact Hv|].
    intros d (_ & ? & ?). by split. }
  rewrite <- Hs in H. rewrite Forall_fmap in H.
  eapply Forall_impl; [exact H|]. by intros d [? ?].
Qed.

Lemma in_run_terms ds budget strategy st :
  valid ds budget -> in_run ds budget strategy st ->
  Forall (fun d => 0 <= apr_pct d ∧ 0 <= min_pay d) (debts st).
Proof.
  intros (_ & Hall & _) Hrun. apply reachable_static in Hrun.
  by eapply terms_ok_of_static.
Qed.

(** The three intermediate lists of a month are non-negative when the
    month starts from non-negative balances. *)
Lemma month_body_nonneg budget order ds :
  Forall (fun d => 0 <= apr_pct d ∧ 0 <= min_pay d) ds ->
  Forall nonneg ds ->
  let b := month_body budget order ds in
  Forall nonneg (after_interest b) ∧ Forall nonneg (after_minimums b) ∧
  Forall nonneg (after_waterfall b).
Proof.
  intros Ht Hn. cbv zeta.
  assert (H1 : Forall (fun d => nonneg d ∧ 0 <= min_pay d)
                 ((fst ∘ accrue) <$> ds)).
  { apply Forall_fmap, Forall_forall. intros d Hin.
    rewrite Forall_forall in Ht, Hn.
    destruct (Ht d Hin) as [Hr Hm]. specialize (Hn d Hin). simpl. split.
    - by apply accrue_nonneg.
    - pose proof (static_fields _ _ (static_accrue d)) as (_ & _ & E).
      by rewrite E. }
  assert (H2 : Forall nonneg (after_min <$> ((fst ∘ accrue) <$> ds))).
  { apply Forall_fmap. eapply Forall_impl; [exact H1|].
    intros d [? ?]. by apply after_min_nonneg. }
  rewrite after_interest_eq, after_minimums_eq. split; [|split; [done|]].
  - eapply Forall_impl; [exact H1|]. by intros d [? _].
  - rewrite month_body_eq. cbv zeta. cbn [after_waterfall].
    apply allocate_extra_nonneg. by rewrite pay_minimums_debts.
Qed.

Lemma month_step_nonneg budget order st :
  Forall (fun d => 0 <= apr_pct d ∧ 0 <= min_pay d) (debts st) ->
  Forall nonneg (debts st) ->
  Forall nonneg (debts (month_step budget order st)).
Proof.
  intros Ht Hn. rewrite month_step_eq. cbv zeta. cbn [debts].
  apply mark_payoffs_Forall.
  - intros d _. unfold nonneg. simpl. lra.
  - by apply month_body_nonneg.
Qed.

Lemma in_run_nonneg ds budget strategy st :
  valid ds budget -> in_run ds budget strategy st ->
  Forall nonneg (debts st).
Proof.
  intros Hv Hrun. induction Hrun as [|st Hrun IH _].
  - destruct Hv as (_ & Hall & _). simpl.
    eapply Forall_impl; [exact Hall|]. by intros d (? & _).
  - apply month_step_nonneg; [|done]. by eapply in_run_terms.
Qed.

End NonNegative.

Section ClaimBalances.
Local Open Scope Q_scope.



End ClaimBalances.

(** ** Paid-off debts *)

Section Settled.
Local Open Scope Q_scope.
Implicit Types (ds : list Debt) (d : Debt) (st : State).

Lemma unset_all_S n : unset_all (S n) = <[n := None]> (unset_all n).
Proof. unfold unset_all. by rewrite seq_S, foldl_app. Qed.

Lemma unset_all_lookup n i :
  unset_all n !! i = if decide (i < n)%nat then Some None else None.
Proof.
  induction n as [|n IH].
  { unfold unset_all. cbn [seq foldl]. rewrite lookup_empty.
    destruct (decide (i < 0)%nat); [lia | done]. }
  rewrite unset_all_S. destruct (decide (i = n)) as [->|Hne].
  - rewrite lookup_insert_eq. destruct (decide (n < S n)%nat); [done | lia].
  - rewrite lookup_insert_ne, IH by done.
    destruct (decide (i < n)%nat), (decide (i < S n)%nat); done || lia.
Qed.

(** Step 4 at position [i] of a state. *)
Lemma month_step_at budget order st i d3 :
  after_waterfall (month_body budget order (debts st)) !! i = Some d3 ->
  let st' := month_step budget order st in
  debts st' !! i
    = Some (if marked (paid_off_month st) i d3
            then set_balance d3 0 else d3) ∧
  paid_off_month st' !! i
    = if marked (paid_off_month st) i d3
      then Some (Some (S (month st))) else paid_off_month st !! i.
Proof.
  intros H. cbv zeta. rewrite month_step_eq. cbv zeta.
  cbn [debts paid_off_month].
  exact (mark_payoffs_at (S (month st)) 0 _ (paid_off_month st) i d3 H).
Qed.

Lemma month_step_outside budget order st i :
  (length (debts st) <= i)%nat ->
  paid_off_month (month_step budget order st) !! i
  = paid_off_month st !! i.
Proof.
  intros H. rewrite month_step_eq. cbv zeta. cbn [paid_off_month].
  apply mark_payoffs_outside. right. simpl.
  rewrite <- (length_fmap static), static_month_body, length_fmap. done.
Qed.

(** A debt at zero is passed over by every step of a month. *)
Lemma month_body_zero budget order ds i d :
  ds !! i = Some d -> balance d == 0 ->
  let b := month_body budget order ds in
  interests b !! i = Some 0 ∧
  after_interest b !! i = Some d ∧
  after_minimums b !! i = Some d ∧
  min_payments b !! i = Some 0 ∧
  after_waterfall b !! i = Some d ∧
  payments b !! i = Some 0 ∧
  waterfall_target order (after_minimums b) ≠ Some i.
Proof.
  intros Hd Hz. cbv zeta.
  assert (Num.leb (balance d) 0 = true) as Hle by (apply leb_true; lra).
  assert (accrue d = (d, 0)) as Hacc by (unfold accrue; by rewrite Hle).
  assert (after_min d = d) as Ham by (unfold after_min; by rewrite Hle).
  assert (min_paid d = 0) as Hmp by (unfold min_paid; by rewrite Hle).
  destruct (month_body_at budget order ds i d Hd)
    as (E0 & E1 & E2 & E4 & Hw). cbv zeta in Hw.
  rewrite Hacc in *. cbn [fst snd] in *. rewrite Ham, Hmp in *.
  assert (Hno : waterfall_target order
                  (after_minimums (month_body budget order ds)) ≠ Some i).
  { intros Ht. apply waterfall_target_lookup in Ht as (d' & Hd' & Hb).
    rewrite E2 in Hd'. injection Hd' as <-.
    pose proof epsilon_pos. lra. }
  destruct Hw as [(E3 & E5 & _)|(_ & Ht & _)]; [done|].
  by destruct Hno.
Qed.

Lemma settled_init ds : settled (init_state ds).
Proof.
  intros i k H. simpl in H. rewrite unset_all_lookup in H.
  by case_decide.
Qed.

(** One month keeps a recorded payoff month and its zero balance. *)
Lemma month_step_keeps budget order st i k d :
  paid_off_month st !! i = Some (Some k) ->
  debts st !! i = Some d -> balance d = 0 ->
  paid_off_month (month_step budget order st) !! i = Some (Some k) ∧
  debts (month_step budget order st) !! i = Some d.
Proof.
  intros Hp Hd Hz.
  assert (balance d == 0) as Hz' by (rewrite Hz; reflexivity).
  destruct (month_body_zero budget order _ i d Hd Hz')
    as (_ & _ & _ & _ & E3 & _).
  destruct (month_step_at budget order st i d E3) as [E4 E5].
  assert (marked (paid_off_month st) i d = false) as Hm.
  { unfold marked, is_unset. rewrite Hp. apply andb_false_r. }
  rewrite Hm in E4, E5. by rewrite E5.
Qed.

Lemma settled_step budget order st :
  settled st -> settled (month_step budget order st).
Proof.
  intros Hs i k Hk. rewrite month_month_step.
  destruct (decide (i < length (debts st))%nat) as [Hlt|Hge].
  - apply lookup_lt_is_Some in Hlt as [d Hd].
    assert (∃ d3, after_waterfall (month_body budget order (debts st)) !! i
                  = Some d3) as [d3 E3].
    { apply lookup_lt_is_Some.
      rewrite <- (length_fmap static), static_month_body, length_fmap.
      by eapply lookup_lt_Some. }
    destruct (month_step_at budget order st i d3 E3) as [E4 E5].
    cbv zeta in E4, E5. rewrite Hk in E5.
    destruct (marked (paid_off_month st) i d3).
    + injection E5 as E5. subst k. split; [lia|]. by eexists.
    + symmetry in E5. destruct (Hs i k E5) as (Hb & d' & Hd' & Hz).
      split; [lia|]. exists d'. split; [|done].
      by apply (month_step_keeps budget order st i k d').
  - rewrite month_step_outside in Hk by lia.
    destruct (Hs i k Hk) as (_ & d & Hd & _).
    apply lookup_lt_Some in Hd. lia.
Qed.

Lemma settled_reachable budget order st0 st :
  settled st0 -> reachable budget order st0 st -> settled st.
Proof.
  intros H0. induction 1 as [|st _ IH _]; [done|]. by apply settled_step.
Qed.

Lemma in_run_settled ds budget strategy st :
  in_run ds budget strategy st -> settled st.
Proof. apply settled_reachable, settled_init. Qed.

Lemma reachable_month_mono budget order st0 st :
  reachable budget order st0 st -> (month st0 <= month st)%nat.
Proof.
  induction 1 as [|st _ IH _]; [done|]. rewrite month_month_step. lia.
Qed.

End Settled.

Section ClaimPayoff.
Local Open Scope Q_scope.



(** C7, as stated, fails: a debt that starts at balance 0 is recorded
    as paid off in month 1, the first simulated month, not in month 0. *)
Lemma cleared_debt_is_marked_in_month_one :
  valid with_cleared 50 ∧
  (balance <$> with_cleared !! 0%nat) = Some 0 ∧
  paid_off_month (final_state with_cleared 50 snowball) !! 0%nat
    = Some (Some 1%nat) ∧
  match simulate with_cleared 50 snowball with
  | inr (df, res) =>
      paid_off_months res !! "Cleared"%string = Some (Some 1%nat) ∧
      paid_off_months res !! "Cleared"%string ≠ Some (Some 0%nat)
  | inl _ => False
  end.
Proof.
  split; [valid_by_computation|]. split; [reflexivity|].
  split; [vm_compute; reflexivity|].
  vm_compute. split; [reflexivity | discriminate].
Qed.

(** C7 (amended): a debt whose balance is 0 at simulation start keeps
    balance 0 in every state of the run; in every month it accrues no
    interest, receives no payment and is never the target of the
    waterfall.  Its payoff month is unset before the first month and is
    1 from the first simulated month on. *)
Theorem zero_balance_debt ds budget strategy i d0 st :
  ds !! i = Some d0 -> balance d0 == 0 ->
  in_run ds budget strategy st ->
  (∃ d, debts st !! i = Some d ∧ balance d == 0) ∧
  paid_off_month st !! i
    = (if decide (month st = 0%nat) then Some None else Some (Some 1%nat)) ∧
  let b := month_body budget (order_debts ds strategy) (debts st) in
  interests b !! i = Some 0 ∧
  payments b !! i = Some 0 ∧
  waterfall_target (order_debts ds strategy) (after_minimums b) ≠ Some i ∧
  after_waterfall b !! i = debts st !! i.
Proof.
  intros Hi Hz Hrun.
  assert ((∃ d, debts st !! i = Some d ∧ balance d == 0) ∧
          paid_off_month st !! i
          = (if decide (month st = 0%nat)
             then Some None else Some (Some 1%nat))) as [(d & Hd & Hzd) Hp].
  { induction Hrun as [|st Hrun [(d & Hd & Hzd) Hp] _].
    - split; [by exists d0|]. simpl. rewrite unset_all_lookup.
      apply lookup_lt_Some in Hi. by destruct (decide (i < length ds)%nat).
    - destruct (month_body_zero budget (order_debts ds strategy) _ i d
                  Hd Hzd) as (_ & _ & _ & _ & E3 & _).
      destruct (month_step_at budget (order_debts ds strategy) st i d E3)
        as [E4 E5]. cbv zeta in E4, E5.
      rewrite month_month_step. unfold marked, is_unset in E4, E5.
      assert (Num.leb (balance d) epsilon = true) as Hle.
      { apply leb_true. pose proof epsilon_pos. lra. }
      rewrite Hle, Hp in E4, E5.
      destruct (decide (month st = 0%nat)) as [E|E]; simpl in E4, E5.
      + split.
        * eexists. split; [exact E4|]. reflexivity.
        * rewrite E5, E.
          by destruct (decide (1 = 0)%nat).
      + split; [by exists d|]. rewrite E5.
        by destruct (decide (S (month st) = 0)%nat). }
  split; [by exists d|]. split; [done|].
  destruct (month_body_zero budget (order_debts ds strategy) _ i d Hd Hzd)
    as (E0 & _ & _ & _ & E3 & E5 & Hno).
  cbv zeta. by rewrite Hd.
Qed.

Lemma zero_balance_debt_witness :
  let order := order_debts with_cleared snowball in
  let st := month_step 50 order (init_state with_cleared) in
  with_cleared !! 0%nat = Some (mkDebt "Cleared" 0 10 0) ∧
  balance (mkDebt "Cleared" 0 10 0) == 0 ∧
  in_run with_cleared 50 snowball st ∧
  (∃ d, debts st !! 0%nat = Some d ∧ balance d == 0) ∧
  paid_off_month st !! 0%nat = Some (Some 1%nat).
Proof.
  cbv zeta.
  assert (H1 : with_cleared !! 0%nat = Some (mkDebt "Cleared" 0 10 0))
    by reflexivity.
  assert (H2 : balance (mkDebt "Cleared" 0 10 0) == 0) by reflexivity.
  assert (H3 : in_run with_cleared 50 snowball
                 (month_step 50 (order_debts with_cleared snowball)
                    (init_state with_cleared))).
  { apply reach_month; [apply reach_start | vm_compute; reflexivity]. }
  split; [exact H1|]. split; [exact H2|]. split; [exact H3|].
  pose proof (zero_balance_debt with_cleared 50 snowball 0%nat _ _
                H1 H2 H3) as (Hz & Hp & _).
  split; [exact Hz | exact Hp].
Defined.

End ClaimPayoff.

(** ** The target order *)

Section Ordering.
Local Open Scope Q_scope.

Lemma pair_before_trans reverse x y z :
  pair_before reverse x y -> pair_before reverse y z ->
  pair_before reverse x z.
Proof.
  unfold pair_before.
  destruct reverse; intros [H1|[H1 L1]] [H2|[H2 L2]];
    (left; lra) || (right; split; [lra | lia]).
Qed.

Lemma insert_sorted_elem reverse x l y :
  y ∈ insert_sorted reverse x l <-> y = x ∨ y ∈ l.
Proof.
  induction l as [|z l IH]; simpl.
  - rewrite list_elem_of_singleton, elem_of_nil. tauto.
  - destruct (goes_before reverse x z).
    + by rewrite elem_of_cons.
    + rewrite !elem_of_cons, IH. tauto.
Qed.

Lemma insert_sorted_sorted reverse x l :
  StronglySorted (pair_before reverse) l ->
  Forall (fun y => (x.1 < y.1)%nat) l ->
  StronglySorted (pair_before reverse) (insert_sorted reverse x l).
Proof.
  induction 1 as [|z l Hl IH Hz]; intros Hx; simpl.
  - repeat constructor.
  - apply Forall_cons in Hx as [Hxz Hx].
    destruct (goes_before reverse x z) eqn:Hg.
    + assert (pair_before reverse x z) as Hxz'.
      { unfold goes_before in Hg. unfold pair_before.
        destruct reverse; apply leb_true in Hg;
          destruct (Qlt_le_dec x.2 z.2), (Qlt_le_dec z.2 x.2);
          (left; lra) || (right; split; [lra | lia]). }
      constructor; [by constructor|]. constructor; [done|].
      eapply Forall_impl; [exact Hz|]. intros y Hy.
      by eapply pair_before_trans.
    + assert (pair_before reverse z x) as Hzx.
      { unfold goes_before in Hg. unfold pair_before.
        destruct reverse; apply leb_false in Hg; left; lra. }
      constructor; [by apply IH|].
      apply Forall_forall. intros y Hy.
      apply insert_sorted_elem in Hy as [->|Hy]; [done|].
      rewrite Forall_forall in Hz. by apply Hz.
Qed.

Lemma sorted_elem reverse l y : y ∈ sorted reverse l <-> y ∈ l.
Proof.
  induction l as [|x l IH]; simpl; [done|].
  rewrite insert_sorted_elem, elem_of_cons, IH. tauto.
Qed.

(** Sorting a list whose positions increase gives a list in
    [pair_before] order: the sort is stable. *)
Lemma sorted_sorted reverse l :
  StronglySorted (fun x y => (x.1 < y.1)%nat) l ->
  StronglySorted (pair_before reverse) (sorted reverse l).
Proof.
  induction 1 as [|x l Hl IH Hx]; simpl; [constructor|].
  apply insert_sorted_sorted; [done|].
  apply Forall_forall. intros y Hy. apply sorted_elem in Hy.
  rewrite Forall_forall in Hx. by apply Hx.
Qed.

Lemma keyed_increasing (key : Debt -> Q) (s : nat) ds :
  StronglySorted (fun x y => (x.1 < y.1)%nat)
    (imap (fun i d => ((s + i)%nat, key d)) ds) ∧
  Forall (fun y => (s <= y.1)%nat)
    (imap (fun i d => ((s + i)%nat, key d)) ds).
Proof.
  revert s. induction ds as [|d ds IH]; intros s.
  - split; constructor.
  - rewrite imap_cons.
    rewrite (imap_ext _ (fun i d => ((S s + i)%nat, key d)))
      by (intros i x _; simpl; f_equal; lia).
    destruct (IH (S s)) as [IH1 IH2]. split.
    + constructor; [done|]. eapply Forall_impl; [exact IH2|].
      intros y Hy. simpl in *. lia.
    + constructor; [simpl; lia|]. eapply Forall_impl; [exact IH2|].
      intros y Hy. simpl in *. lia.
Qed.

Lemma keyed_elem key ds i a :
  (i, a) ∈ keyed key ds <-> ∃ d, ds !! i = Some d ∧ a = key d.
Proof.
  unfold keyed. rewrite elem_of_lookup_imap. split.
  - intros (j & d & [= -> ->] & Hd). by exists d.
  - intros (d & Hd & ->). by exists i, d.
Qed.

Lemma keyed_sorted reverse key ds :
  StronglySorted (pair_before reverse) (sorted reverse (keyed key ds)).
Proof.
  apply sorted_sorted. unfold keyed.
  destruct (keyed_increasing key 0 ds) as [H _].
  by rewrite (imap_ext _ (fun i d => ((0 + i)%nat, key d))).
Qed.

(** Projecting a sorted list of keyed positions to the positions. *)
Lemma sorted_positions (R : nat * Q -> nat * Q -> Prop)
  (L0 L : list (nat * Q)) :
  (∀ x, x ∈ L -> x ∈ L0) ->
  StronglySorted R L ->
  StronglySorted
    (fun j k => ∃ a b, (j, a) ∈ L0 ∧ (k, b) ∈ L0 ∧ R (j, a) (k, b))
    (L.*1).
Proof.
  intros Hsub H. induction H as [|[j a] L HL IH Hx]; [constructor|].
  rewrite fmap_cons. constructor.
  - apply IH. intros x Hx'. apply Hsub. by right.
  - apply Forall_fmap, Forall_forall. intros [k b] Hk. simpl.
    exists a, b. split; [apply Hsub; by left|].
    split; [apply Hsub; by right|].
    rewrite Forall_forall in Hx. by apply Hx.
Qed.

(** In a sorted list, the first element with a property comes before
    every other element with it. *)
Lemma find_first_sorted {A} (R : A -> A -> Prop) (P : A -> bool) l j :
  StronglySorted R l -> List.find P l = Some j ->
  P j = true ∧ j ∈ l ∧ ∀ k, k ∈ l -> P k = true -> k = j ∨ R j k.
Proof.
  induction 1 as [|x l Hl IH Hx]; simpl; [done|].
  destruct (P x) eqn:Hp.
  - intros [= ->]. split; [done|]. split; [by left|].
    intros k Hk _. apply elem_of_cons in Hk as [->|Hk]; [by left|].
    right. rewrite Forall_forall in Hx. by apply Hx.
  - intros Hf. destruct (IH Hf) as (H1 & H2 & H3).
    split; [done|]. split; [by right|].
    intros k Hk Hpk. apply elem_of_cons in Hk as [->|Hk]; [congruence|].
    by apply H3.
Qed.

Lemma order_debts_elem ds strategy i :
  i ∈ order_debts ds strategy <-> (i < length ds)%nat.
Proof.
  unfold order_debts. rewrite <- lookup_lt_is_Some.
  destruct (is_snowball strategy); rewrite list_elem_of_fmap; split.
  1,3: intros ([j a] & -> & H); apply sorted_elem, keyed_elem in H
         as (d & Hd & _); by exists d.
  all: intros [d Hd]; eexists (i, _); split; [done|];
       apply sorted_elem, keyed_elem; by exists d.
Qed.

Lemma StronglySorted_weaken {A} (R R' : A -> A -> Prop) l :
  (∀ x y, R x y -> R' x y) -> StronglySorted R l -> StronglySorted R' l.
Proof.
  intros HR. induction 1 as [|x l _ IH Hx]; constructor; [done|].
  eapply Forall_impl; [exact Hx|]. intros y. apply HR.
Qed.

(** [order_debts] lists the positions in [targets_before] order. *)
Lemma order_debts_sorted ds strategy :
  StronglySorted (targets_before strategy ds) (order_debts ds strategy).
Proof.
  unfold order_debts, targets_before.
  destruct (is_snowball strategy).
  - pose proof (sorted_positions _ (keyed balance ds) _
      (fun x H => proj1 (sorted_elem false _ x) H)
      (keyed_sorted false balance ds)) as H.
    eapply StronglySorted_weaken; [|exact H]. clear H.
    intros j k (a & b & Ha & Hb & Hab).
    apply keyed_elem in Ha as (dj & Hj & ->).
    apply keyed_elem in Hb as (dk & Hk & ->).
    exists dj, dk. do 2 (split; [done|]). exact Hab.
  - pose proof (sorted_positions _ (keyed apr_pct ds) _
      (fun x H => proj1 (sorted_elem true _ x) H)
      (keyed_sorted true apr_pct ds)) as H.
    eapply StronglySorted_weaken; [|exact H]. clear H.
    intros j k (a & b & Ha & Hb & Hab).
    apply keyed_elem in Ha as (dj & Hj & ->).
    apply keyed_elem in Hb as (dk & Hk & ->).
    exists dj, dk. do 2 (split; [done|]). exact Hab.
Qed.

End Ordering.

Section ClaimOrder.
Local Open Scope Q_scope.

Example order_snowball : order_debts four_debts snowball = [1; 3; 0; 2]%nat.
Proof. reflexivity. Qed.

Example order_avalanche :
  order_debts four_debts avalanche = [3; 0; 2; 1]%nat.
Proof. reflexivity. Qed.

(** Only the target of the waterfall is paid more than its minimum. *)
Lemma extra_only_to_target budget order ds k pk pk' :
  min_payments (month_body budget order ds) !! k = Some pk ->
  payments (month_body budget order ds) !! k = Some pk' ->
  pk < pk' ->
  waterfall_target order (after_minimums (month_body budget order ds))
  = Some k.
Proof.
  intros H4 H5 Hlt.
  assert (∃ d, ds !! k = Some d) as [d Hd].
  { apply lookup_lt_is_Some. apply lookup_lt_Some in H4.
    by rewrite min_payments_eq, !length_fmap in H4. }
  destruct (month_body_at budget order ds k d Hd)
    as (_ & _ & _ & E4 & Hw). cbv zeta in Hw.
  destruct Hw as [(_ & E5 & _)|(_ & Ht & _)]; [|done].
  rewrite H4 in E4. rewrite H5 in E5.
  injection E4 as ->. injection E5 as ->. lra.
Qed.

(** C3: in any month of a run, a debt paid more than its minimum is
    the target of the waterfall; so at most one debt is, its balance
    after the minimums exceeds epsilon, and every other debt whose
    balance after the minimums exceeds epsilon comes after it in the
    order fixed from the month-0 values: larger original balance
    (Snowball) or lower original APR (Avalanche), or an equal one and a
    later input position. *)
Theorem extra_goes_to_first_unpaid ds budget strategy st j pj pj' :
  in_run ds budget strategy st ->
  min_payments (month_body budget (order_debts ds strategy) (debts st))
    !! j = Some pj ->
  payments (month_body budget (order_debts ds strategy) (debts st))
    !! j = Some pj' ->
  pj < pj' ->
  let b := month_body budget (order_debts ds strategy) (debts st) in
  waterfall_target (order_debts ds strategy) (after_minimums b) = Some j ∧
  (∃ dj, after_minimums b !! j = Some dj ∧ epsilon < balance dj) ∧
  (∀ k pk pk',
      min_payments b !! k = Some pk -> payments b !! k = Some pk' ->
      pk < pk' -> k = j) ∧
  (∀ k dk,
      after_minimums b !! k = Some dk -> epsilon < balance dk ->
      k = j ∨ targets_before strategy ds j k).
Proof.
  intros Hrun H4 H5 Hlt. cbv zeta.
  pose proof (extra_only_to_target _ _ _ _ _ _ H4 H5 Hlt) as Ht.
  split; [done|]. split; [exact (waterfall_target_lookup _ _ _ Ht)|]. split.
  - intros k pk pk' K4 K5 Klt.
    pose proof (extra_only_to_target _ _ _ _ _ _ K4 K5 Klt). congruence.
  - intros k dk Hk Hb.
    destruct (find_first_sorted _ _ _ _
                (order_debts_sorted ds strategy) Ht) as (_ & _ & Hfirst).
    apply Hfirst.
    + apply order_debts_elem. apply lookup_lt_Some in Hk.
      rewrite after_minimums_eq, !length_fmap in Hk.
      by rewrite (reachable_length _ _ _ _ Hrun) in Hk.
    + unfold above_epsilon. rewrite Hk. by apply ltb_true.
Qed.

Lemma extra_goes_to_first_unpaid_witness :
  let b := month_body 100 (order_debts two_cards avalanche) two_cards in
  in_run two_cards 100 avalanche (init_state two_cards) ∧
  min_payments b !! 0%nat = Some 20 ∧
  payments b !! 0%nat = Some 60 ∧
  20 < 60 ∧
  waterfall_target (order_debts two_cards avalanche) (after_minimums b)
  = Some 0%nat.
Proof.
  cbv zeta.
  assert (H1 : in_run two_cards 100 avalanche (init_state two_cards))
    by apply reach_start.
  assert (H2 : min_payments
                 (month_body 100 (order_debts two_cards avalanche)
                    (debts (init_state two_cards))) !! 0%nat = Some 20)
    by (vm_compute; reflexivity).
  assert (H3 : payments
                 (month_body 100 (order_debts two_cards avalanche)
                    (debts (init_state two_cards))) !! 0%nat = Some 60)
    by (vm_compute; reflexivity).
  assert (H4 : 20 < 60) by reflexivity.
  split; [exact H1|]. split; [exact H2|]. split; [exact H3|].
  split; [exact H4|].
  exact (proj1 (extra_goes_to_first_unpaid two_cards 100 avalanche _
                  0%nat 20 60 H1 H2 H3 H4)).
Defined.

End ClaimOrder.

(** ** The budget of a month *)

Section ClaimBudget.
Local Open Scope Q_scope.
Implicit Types (ds : list Debt) (d : Debt).

Lemma allocate_extra_split order ds ps rb :
  ((rb <= 0 ∨ waterfall_target order ds = None) ∧
   allocate_extra order ds ps rb = (ds, ps, rb))
  ∨ ∃ j d, 0 < rb ∧ waterfall_target order ds = Some j ∧
      ds !! j = Some d ∧ epsilon < balance d ∧
      allocate_extra order ds ps rb =
        (<[j := set_balance d
                  (Num.sub (balance d) (Num.min rb (balance d)))]> ds,
         alter (fun p => Num.add p (Num.min rb (balance d))) j ps,
         Num.sub rb (Num.min rb (balance d))).
Proof.
  unfold allocate_extra. destruct (Num.ltb 0 rb) eqn:Hrb.
  - destruct (waterfall_target order ds) as [j|] eqn:Ht.
    + right. destruct (waterfall_on_target order ds ps rb j Ht)
        as (d & Hd & Hb & Hw).
      exists j, d. by rewrite ltb_true in Hrb.
    + left. split; [by right|]. by apply waterfall_no_target.
  - left. split; [|done]. left. by apply ltb_false.
Qed.




End ClaimBudget.

(** ** The returned mapping *)

Section ByName.
Implicit Types (ds : list Debt) (d : Debt) (pom : gmap nat (option nat)).

Lemma by_name_foldl ds pom :
  by_name ds pom = foldl (assign pom) ∅ (imap (fun i d => (i, d)) ds).
Proof.
  unfold by_name. generalize (∅ : gmap string (option nat)).
  induction (imap (fun i d => (i, d)) ds) as [|[i d] l IH]; intros res;
    [done|].
  simpl. by rewrite IH.
Qed.

Lemma foldl_assign_other pom (l : list (nat * Debt)) res key :
  Forall (fun x => name x.2 ≠ key) l ->
  foldl (assign pom) res l !! key = res !! key.
Proof.
  intros H. revert res. induction H as [|x l Hx _ IH]; intros res; [done|].
  simpl. rewrite IH. unfold assign. by rewrite lookup_insert_ne.
Qed.


Lemma static_lookup ds ds' i d :
  static <$> ds = static <$> ds' -> ds !! i = Some d ->
  ∃ d', ds' !! i = Some d' ∧ static d = static d'.
Proof.
  intros Hs Hd. apply (f_equal (fun l => l !! i)) in Hs.
  rewrite !list_lookup_fmap, Hd in Hs. simpl in Hs. symmetry in Hs.
  apply fmap_Some in Hs as (d' & Hd' & E). by exists d'.
Qed.

(** Every position of the input has an entry in [paid_off_month]. *)
Lemma in_run_dom ds budget strategy st i :
  in_run ds budget strategy st -> (i < length ds)%nat ->
  is_Some (paid_off_month st !! i).
Proof.
  intros Hrun Hi. induction Hrun as [|st Hrun IH _].
  - simpl. rewrite unset_all_lookup.
    by destruct (decide (i < length ds)%nat).
  - assert (∃ d3, after_waterfall
                    (month_body budget (order_debts ds strategy) (debts st))
                    !! i = Some d3) as [d3 E3].
    { apply lookup_lt_is_Some.
      rewrite <- (length_fmap static), static_month_body, length_fmap.
      by rewrite (reachable_length _ _ _ _ Hrun). }
    destruct (month_step_at budget (order_debts ds strategy) st i d3 E3)
      as [_ E5]. cbv zeta in E5. rewrite E5.
    by destruct (marked _ _ _).
Qed.


End ByName.

Section ClaimMapping.
Local Open Scope Q_scope.




End ClaimMapping.

(** ** Reaching the horizon *)

Section ClaimHorizon.
Local Open Scope Q_scope.





End ClaimHorizon.

(** * Further properties of the code *)

(** ** order_debts *)

Section OrderFacts.
Local Open Scope Q_scope.

Lemma insert_sorted_perm reverse x l : insert_sorted reverse x l ≡ₚ x :: l.
Proof.
  induction l as [|y l IH]; simpl; [done|].
  destruct (goes_before reverse x y); [done|].
  rewrite IH. apply Permutation_swap.
Qed.

Lemma sorted_perm reverse l : sorted reverse l ≡ₚ l.
Proof.
  induction l as [|x l IH]; simpl; [done|].
  by rewrite insert_sorted_perm, IH.
Qed.

Lemma keyed_positions key ds : (keyed key ds).*1 = seq 0 (length ds).
Proof.
  unfold keyed. rewrite fmap_imap.
  rewrite (imap_ext _ (fun j _ => id j)) by done.
  by rewrite imap_seq_0, list_fmap_id.
Qed.

(** [order_debts] returns every position of the debt list exactly once:
    it is a permutation of [range(len(debts))], whatever the strategy. *)
Theorem order_debts_permutation ds strategy :
  order_debts ds strategy ≡ₚ seq 0 (length ds).
Proof.
  unfold order_debts. destruct (is_snowball strategy).
  - by rewrite sorted_perm, keyed_positions.
  - by rewrite sorted_perm, keyed_positions.
Qed.

Lemma StronglySorted_lookup {A} (R : A -> A -> Prop) (l : list A) a b x y :
  StronglySorted R l -> l !! a = Some x -> l !! b = Some y ->
  (a < b)%nat -> R x y.
Proof.
  intros H. revert a b. induction H as [|z l _ IH Hz]; intros a b; [done|].
  destruct a as [|a], b as [|b]; simpl; try lia.
  - intros [= ->] Hy _. rewrite Forall_forall in Hz. apply Hz.
    by eapply list_elem_of_lookup_2.
  - intros Hx Hy Hab. apply (IH a b); [done..|lia].
Qed.

(** The order is sorted and stable: of two positions of the returned
    list, the one listed first has the smaller balance (Snowball) or the
    higher APR (Avalanche), or an equal one and the earlier place in the
    input. *)
Theorem order_debts_stable ds strategy a b ia ib :
  order_debts ds strategy !! a = Some ia ->
  order_debts ds strategy !! b = Some ib ->
  (a < b)%nat ->
  targets_before strategy ds ia ib.
Proof.
  intros Ha Hb Hab.
  exact (StronglySorted_lookup _ _ a b ia ib
           (order_debts_sorted ds strategy) Ha Hb Hab).
Qed.

Lemma order_debts_stable_witness :
  order_debts four_debts snowball !! 0%nat = Some 1%nat ∧
  order_debts four_debts snowball !! 1%nat = Some 3%nat ∧
  (0 < 1)%nat ∧
  targets_before snowball four_debts 1 3.
Proof.
  assert (Ha : order_debts four_debts snowball !! 0%nat = Some 1%nat)
    by reflexivity.
  assert (Hb : order_debts four_debts snowball !! 1%nat = Some 3%nat)
    by reflexivity.
  assert (Hab : (0 < 1)%nat) by lia.
  split; [exact Ha|]. split; [exact Hb|]. split; [exact Hab|].
  exact (order_debts_stable four_debts snowball 0 1 1 3 Ha Hb Hab).
Defined.

Lemma is_snowball_snowball : is_snowball snowball = true.
Proof. reflexivity. Qed.

Lemma is_snowball_avalanche : is_snowball avalanche = false.
Proof. reflexivity. Qed.

Lemma order_debts_dispatch ds strategy :
  order_debts ds strategy
  = order_debts ds (if is_snowball strategy then snowball else avalanche).
Proof.
  unfold order_debts at 1 2. destruct (is_snowball strategy).
  - by rewrite is_snowball_snowball.
  - by rewrite is_snowball_avalanche.
Qed.

Lemma simulate_dispatch ds budget strategy :
  simulate ds budget strategy
  = simulate ds budget (if is_snowball strategy then snowball else avalanche).
Proof.
  unfold simulate, final_state. by rewrite <- order_debts_dispatch.
Qed.

(** The strategy is never validated: only its prefix is read.  A string
    that starts with "Snowball" runs Snowball, every other string (the
    empty one, a lower-case or misspelt name) runs Avalanche. *)
Theorem strategy_read_by_prefix ds budget strategy :
  (order_debts ds strategy = order_debts ds snowball ∧
   simulate ds budget strategy = simulate ds budget snowball ∧
   String.prefix "Snowball" strategy = true)
  ∨ (order_debts ds strategy = order_debts ds avalanche ∧
     simulate ds budget strategy = simulate ds budget avalanche ∧
     String.prefix "Snowball" strategy = false).
Proof.
  pose proof (order_debts_dispatch ds strategy) as Ho.
  pose proof (simulate_dispatch ds budget strategy) as Hs.
  unfold is_snowball in *.
  destruct (String.prefix "Snowball" strategy); [left | right]; done.
Qed.

Example lower_case_runs_avalanche :
  is_snowball "snowball" = false ∧ is_snowball "" = false ∧
  is_snowball "Snowball" = true.
Proof. repeat split. Qed.

(** With a single debt the two strategies coincide: [simulate] returns
    the same outcome for any two strategy strings. *)
Theorem single_debt_same_for_all_strategies d budget s1 s2 :
  order_debts [d] s1 = [0%nat] ∧
  simulate [d] budget s1 = simulate [d] budget s2.
Proof.
  assert (∀ s, order_debts [d] s = [0%nat]) as H.
  { intros s. unfold order_debts. by destruct (is_snowball s). }
  split; [apply H|]. unfold simulate, final_state. by rewrite !H.
Qed.

End OrderFacts.

(** ** Validation *)

Section ValidationFacts.
Local Open Scope Q_scope.

Lemma existsb_negative ds :
  existsb negative_input ds = true <->
  Exists (fun d => balance d < 0 ∨ min_pay d < 0 ∨ apr_pct d < 0) ds.
Proof.
  rewrite existsb_exists, Exists_exists. split.
  - intros (x & Hin & Hx). exists x. split; [by apply list_elem_of_In|].
    by apply negative_input_true.
  - intros (x & Hin & Hx). exists x. split; [by apply list_elem_of_In|].
    by apply negative_input_true.
Qed.

Lemma existsb_negative_false ds :
  existsb negative_input ds = false <->
  Forall (fun d => 0 <= balance d ∧ 0 <= min_pay d ∧ 0 <= apr_pct d) ds.
Proof.
  rewrite <- not_true_iff_false, existsb_negative, <- Forall_Exists_neg.
  apply Forall_iff. intros d. split.
  - intros H. repeat split; apply Qnot_lt_le; tauto.
  - intros (H1 & H2 & H3) [H|[H|H]]; lra.
Qed.

(** The checks of [simulate] run in a fixed order and the first failing
    one decides the error: a negative balance, minimum payment or rate is
    reported even when the budget is also bad, and a budget [<= 0] is
    reported before the minimum payments are looked at. *)
Theorem validation_order ds budget strategy :
  ds ≠ [] ->
  (Exists (fun d => balance d < 0 ∨ min_pay d < 0 ∨ apr_pct d < 0) ds ->
   simulate ds budget strategy = inl (ValueError InputsNonNegative)) ∧
  (Forall (fun d => 0 <= balance d ∧ 0 <= min_pay d ∧ 0 <= apr_pct d) ds ->
   budget <= 0 ->
   simulate ds budget strategy = inl (ValueError BudgetPositive)).
Proof.
  intros Hne. unfold simulate.
  destruct ds as [|d ds]; [done|]. cbn [length Nat.ltb Nat.leb negb].
  split.
  - intros H. apply existsb_negative in H. by rewrite H.
  - intros H Hb. apply existsb_negative_false in H. rewrite H.
    apply leb_true in Hb. by rewrite Hb.
Qed.

Lemma validation_order_witness :
  underfunded ≠ [] ∧
  simulate underfunded 0 snowball = inl (ValueError BudgetPositive).
Proof.
  assert (Hne : underfunded ≠ []) by discriminate.
  split; [exact Hne|].
  refine (proj2 (validation_order underfunded 0 snowball Hne) _ _).
  - repeat constructor; vm_compute; discriminate.
  - discriminate.
Defined.

Lemma simulate_result_valid ds budget strategy out :
  simulate ds budget strategy = inr out -> valid ds budget.
Proof.
  intros Hout. unfold simulate in Hout.
  destruct ds as [|d ds]; [done|].
  cbn [length Nat.ltb Nat.leb negb] in Hout.
  destruct (existsb negative_input (d :: ds)) eqn:H1; [done|].
  destruct (Num.leb budget 0) eqn:H2; [done|].
  destruct (Num.ltb budget (min_sum (d :: ds))) eqn:H3; [done|].
  split; [done|]. split; [by apply existsb_negative_false|].
  split; [by apply leb_false | by apply ltb_false].
Qed.

(** [simulate] returns a data frame and a result only for a non-empty
    list of debts without a negative balance, minimum payment or rate,
    and a budget above 0. *)
Theorem result_needs_sane_input ds budget strategy out :
  simulate ds budget strategy = inr out ->
  ds ≠ [] ∧
  Forall (fun d => 0 <= balance d ∧ 0 <= min_pay d ∧ 0 <= apr_pct d) ds ∧
  0 < budget.
Proof.
  intros Hout. apply simulate_result_valid in Hout.
  by destruct Hout as (? & ? & ? & _).
Qed.

Lemma result_needs_sane_input_witness :
  simulate one_loan 100 snowball
  = inr (rows (final_state one_loan 100 snowball),
         result_of (final_state one_loan 100 snowball)) ∧
  one_loan ≠ [] ∧
  Forall (fun d => 0 <= balance d ∧ 0 <= min_pay d ∧ 0 <= apr_pct d)
    one_loan ∧
  0 < 100.
Proof.
  assert (H : simulate one_loan 100 snowball
              = inr (rows (final_state one_loan 100 snowball),
                     result_of (final_state one_loan 100 snowball))).
  { apply simulate_valid. valid_by_computation. }
  split; [exact H|].
  exact (result_needs_sane_input one_loan 100 snowball _ H).
Defined.

(** Whether [simulate] fails, and with which error, does not depend on
    the strategy: the two runs the page makes on the same debts and
    budget are rejected alike. *)
Theorem failure_ignores_strategy ds budget s1 s2 e :
  simulate ds budget s1 = inl e -> simulate ds budget s2 = inl e.
Proof.
  unfold simulate.
  destruct (negb (0 <? length ds)%nat); [done|].
  destruct (existsb negative_input ds); [done|].
  destruct (Num.leb budget 0); [done|].
  destruct (Num.ltb budget (min_sum ds)); done.
Qed.

Lemma failure_ignores_strategy_witness :
  simulate underfunded 40 avalanche
  = inl (ValueError (BudgetBelowMinimums 40 50)) ∧
  simulate underfunded 40 snowball
  = inl (ValueError (BudgetBelowMinimums 40 50)).
Proof.
  assert (H : simulate underfunded 40 avalanche
              = inl (ValueError (BudgetBelowMinimums 40 50)))
    by reflexivity.
  split; [exact H|].
  exact (failure_ignores_strategy underfunded 40 avalanche snowball _ H).
Defined.

(** ** The page's comparison *)

Lemma other_strategy_flips s :
  is_snowball (other_strategy s) = negb (is_snowball s).
Proof. unfold other_strategy. by destruct (is_snowball s). Qed.

Lemma result_for_every_strategy ds budget s1 s2 out :
  simulate ds budget s1 = inr out ->
  ∃ out', simulate ds budget s2 = inr out'.
Proof.
  intros H. apply simulate_result_valid in H. eexists.
  by apply simulate_valid.
Qed.

(** The page compares the two rules, never one rule with itself: the
    second run uses Avalanche when the chosen strategy starts with
    "Snowball" and Snowball otherwise.  When the run of the chosen
    strategy returns, so does the second run, and the page shows both;
    when the first run raises a [ValueError] the page shows its
    message. *)
Theorem compare_outcomes ds budget s :
  is_snowball (other_strategy s) = negb (is_snowball s) ∧
  (∀ chosen, simulate ds budget s = inr chosen ->
     ∃ other, simulate ds budget (other_strategy s) = inr other ∧
              compare ds budget s = ShowComparison chosen other) ∧
  (∀ msg, simulate ds budget s = inl (ValueError msg) ->
     compare ds budget s = ShowError msg).
Proof.
  split; [apply other_strategy_flips|]. unfold compare. split.
  - intros chosen E.
    destruct (result_for_every_strategy ds budget s (other_strategy s)
                chosen E) as [other E'].
    exists other. by rewrite E, E'.
  - intros msg E. by rewrite E.
Qed.

End ValidationFacts.

(** ** Interest *)

Section InterestFacts.
Local Open Scope Q_scope.

Lemma interests_nonneg ds budget strategy st :
  valid ds budget -> in_run ds budget strategy st ->
  Forall (fun x => 0 <= x)
    (interests (month_body budget (order_debts ds strategy) (debts st))).
Proof.
  intros Hv Hrun. rewrite interests_eq. apply Forall_fmap.
  pose proof (in_run_nonneg _ _ _ _ Hv Hrun) as Hn.
  pose proof (in_run_terms _ _ _ _ Hv Hrun) as Ht.
  apply Forall_forall. intros d Hd. rewrite Forall_forall in Hn, Ht.
  simpl. apply interest_nonneg; [apply Ht | apply Hn]; done.
Qed.

Lemma total_interest_step ds budget strategy st :
  valid ds budget -> in_run ds budget strategy st ->
  total_interest st
  <= total_interest (month_step budget (order_debts ds strategy) st).
Proof.
  intros Hv Hrun. rewrite month_step_eq. cbv zeta. cbn [total_interest].
  rewrite add_correct.
  pose proof (sum_nonneg _ (interests_nonneg _ _ _ _ Hv Hrun)). lra.
Qed.

(** On a valid input the interest accumulator starts at 0 and never goes
    down: no month accrues negative interest, so the running total of a
    later state of the run is at least that of an earlier one. *)
Theorem total_interest_monotone ds budget strategy st st' :
  valid ds budget -> in_run ds budget strategy st ->
  reachable budget (order_debts ds strategy) st st' ->
  0 <= total_interest st ∧ total_interest st <= total_interest st'.
Proof.
  intros Hv Hrun Hlater. split.
  - clear Hlater. induction Hrun as [|st Hrun IH _]; [simpl; lra|].
    pose proof (total_interest_step _ _ _ _ Hv Hrun). lra.
  - induction Hlater as [|st' Hlater IH _]; [lra|].
    assert (in_run ds budget strategy st') as Hrun'
      by (by eapply reachable_trans).
    pose proof (total_interest_step _ _ _ _ Hv Hrun'). lra.
Qed.

Lemma total_interest_monotone_witness :
  let order := order_debts two_cards avalanche in
  let st' := month_step 100 order (init_state two_cards) in
  valid two_cards 100 ∧
  in_run two_cards 100 avalanche (init_state two_cards) ∧
  reachable 100 order (init_state two_cards) st' ∧
  total_interest (init_state two_cards) <= total_interest st'.
Proof.
  cbv zeta.
  assert (Hv : valid two_cards 100) by valid_by_computation.
  assert (Hr : in_run two_cards 100 avalanche (init_state two_cards))
    by apply reach_start.
  assert (Hl : reachable 100 (order_debts two_cards avalanche)
                 (init_state two_cards)
                 (month_step 100 (order_debts two_cards avalanche)
                    (init_state two_cards))).
  { apply reach_month; [apply reach_start | vm_compute; reflexivity]. }
  split; [exact Hv|]. split; [exact Hr|]. split; [exact Hl|].
  exact (proj2 (total_interest_monotone two_cards 100 avalanche _ _
                  Hv Hr Hl)).
Defined.

End InterestFacts.

(** ** Payoff marks and the end of a run *)

Section PayoffFacts.
Local Open Scope Q_scope.




Lemma in_run_lookup_after ds budget strategy st i d :
  in_run ds budget strategy st -> debts st !! i = Some d ->
  ∃ d3, after_waterfall
          (month_body budget (order_debts ds strategy) (debts st)) !! i
        = Some d3.
Proof.
  intros Hrun Hd. apply lookup_lt_is_Some.
  rewrite <- (length_fmap static), static_month_body, length_fmap.
  by eapply lookup_lt_Some.
Qed.

(** After a simulated month every debt is in one of two conditions. *)
Lemma month_step_paid_or_unpaid ds budget strategy st i d4 :
  in_run ds budget strategy st ->
  debts (month_step budget (order_debts ds strategy) st) !! i = Some d4 ->
  (balance d4 = 0 ∧
   ∃ k, paid_off_month (month_step budget (order_debts ds strategy) st) !! i
        = Some (Some k) ∧ (1 <= k <= S (month st))%nat)
  ∨ (epsilon < balance d4 ∧
     paid_off_month (month_step budget (order_debts ds strategy) st) !! i
     = Some None).
Proof.
  intros Hrun Hd4.
  assert (i < length (debts st))%nat as Hi.
  { apply lookup_lt_Some in Hd4.
    rewrite <- (length_fmap static), static_month_step, length_fmap in Hd4.
    done. }
  destruct (lookup_lt_is_Some_2 _ _ Hi) as [d Hd].
  destruct (in_run_lookup_after _ _ _ _ _ _ Hrun Hd) as [d3 E3].
  destruct (in_run_dom _ _ _ _ i Hrun) as [v Hv].
  { rewrite (reachable_length _ _ _ _ Hrun) in Hi. exact Hi. }
  destruct v as [k|].
  - destruct (in_run_settled _ _ _ _ Hrun i k Hv) as (Hk & d' & Hd' & Hz).
    destruct (month_step_keeps budget (order_debts ds strategy) st i k d'
                Hv Hd' Hz) as [K1 K2].
    rewrite K2 in Hd4. injection Hd4 as <-. left. split; [done|].
    exists k. split; [done | lia].
  - destruct (month_step_at budget (order_debts ds strategy) st i d3 E3)
      as [E4 E5]. cbv zeta in E4, E5.
    unfold marked, is_unset in E4, E5. rewrite Hv in E4, E5.
    rewrite andb_true_r in E4, E5. rewrite Hd4 in E4.
    destruct (Num.leb (balance d3) epsilon) eqn:El.
    + injection E4 as ->. left. split; [done|].
      exists (S (month st)). split; [done | lia].
    + injection E4 as ->. right. split; [by apply leb_false | done].
Qed.

Lemma reachable_inv budget order st0 st :
  reachable budget order st0 st ->
  st = st0 ∨ ∃ st1, reachable budget order st0 st1 ∧
                    keep_going st1 = true ∧
                    st = month_step budget order st1.
Proof. destruct 1 as [|st1 H1 Hk]; [by left|]. right. by exists st1. Qed.

Lemma in_run_paid_or_unpaid ds budget strategy st i d :
  in_run ds budget strategy st -> (1 <= month st)%nat ->
  debts st !! i = Some d ->
  (balance d = 0 ∧
   ∃ k, paid_off_month st !! i = Some (Some k) ∧ (1 <= k <= month st)%nat)
  ∨ (epsilon < balance d ∧ paid_off_month st !! i = Some None).
Proof.
  intros Hrun Hm Hd.
  destruct (reachable_inv _ _ _ _ Hrun) as [->|(st1 & H1 & _ & ->)].
  - simpl in Hm. lia.
  - rewrite month_month_step.
    by apply (month_step_paid_or_unpaid ds budget strategy st1 i d).
Qed.

(** From the first simulated month on, the payoff mark of a debt tells
    its condition: either the debt is marked with a month between 1 and
    the current one and its balance is exactly 0, or it is unmarked and
    its balance exceeds epsilon.  No balance is left in between. *)
Theorem marked_iff_cleared ds budget strategy st i d :
  in_run ds budget strategy st -> (1 <= month st)%nat ->
  debts st !! i = Some d ->
  (balance d = 0 ∧
   ∃ k, paid_off_month st !! i = Some (Some k) ∧ (1 <= k <= month st)%nat)
  ∨ (epsilon < balance d ∧ paid_off_month st !! i = Some None).
Proof. apply in_run_paid_or_unpaid. Qed.

Lemma marked_iff_cleared_witness :
  let st := month_step 100 (order_debts small_loan snowball)
              (init_state small_loan) in
  in_run small_loan 100 snowball st ∧ (1 <= month st)%nat ∧
  debts st !! 0%nat = Some (mkDebt "Loan" 0 0 100) ∧
  ((balance (mkDebt "Loan" 0 0 100) = 0 ∧
    ∃ k, paid_off_month st !! 0%nat = Some (Some k) ∧
         (1 <= k <= month st)%nat)
   ∨ (epsilon < balance (mkDebt "Loan" 0 0 100) ∧
      paid_off_month st !! 0%nat = Some None)).
Proof.
  cbv zeta.
  assert (H1 : in_run small_loan 100 snowball
                 (month_step 100 (order_debts small_loan snowball)
                    (init_state small_loan))).
  { apply reach_month; [apply reach_start | vm_compute; reflexivity]. }
  assert (H2 : (1 <= month (month_step 100 (order_debts small_loan snowball)
                              (init_state small_loan)))%nat)
    by (vm_compute; lia).
  assert (H3 : debts (month_step 100 (order_debts small_loan snowball)
                        (init_state small_loan)) !! 0%nat
               = Some (mkDebt "Loan" 0 0 100)) by (vm_compute; reflexivity).
  split; [exact H1|]. split; [exact H2|]. split; [exact H3|].
  exact (marked_iff_cleared small_loan 100 snowball _ 0%nat _ H1 H2 H3).
Defined.

Lemma loop_idle fuel budget order st :
  keep_going st = false -> loop fuel budget order st = st.
Proof. intros H. destruct fuel; simpl; by rewrite H. Qed.

Lemma keep_going_init ds :
  keep_going (init_state ds) = (0 <? count_unpaid ds)%nat.
Proof. unfold keep_going. simpl. apply andb_true_r. Qed.

Lemma foldl_assign_values pom (l : list (nat * Debt)) res key v :
  foldl (assign pom) res l !! key = Some v ->
  res !! key = Some v
  ∨ ∃ x, x ∈ l ∧ name x.2 = key ∧ v = default None (pom !! x.1).
Proof.
  revert res. induction l as [|x l IH]; intros res; simpl; [by left|].
  intros H. destruct (IH _ H) as [H'|(y & Hy & Hn & Hv)].
  - unfold assign in H'. destruct (decide (name x.2 = key)) as [E|E].
    + rewrite E, lookup_insert_eq in H'. injection H' as <-.
      right. exists x. split; [by left | done].
    + rewrite lookup_insert_ne in H' by done. by left.
  - right. exists y. split; [by right | done].
Qed.

Lemma foldl_assign_present pom (l : list (nat * Debt)) res x :
  x ∈ l -> is_Some (foldl (assign pom) res l !! name x.2).
Proof.
  revert res x. induction l as [|y l IH]; intros res x Hx;
    [by apply elem_of_nil in Hx|].
  simpl. apply elem_of_cons in Hx as [->|Hx]; [|by apply IH].
  destruct (decide (Forall (fun z => name z.2 ≠ name y.2) l)) as [Hf|Hf].
  - rewrite foldl_assign_other by done. unfold assign.
    rewrite lookup_insert_eq. by eexists.
  - apply not_Forall_Exists in Hf; [|apply _].
    apply Exists_exists in Hf as (z & Hz & Hn).
    apply dec_stable in Hn. rewrite <- Hn. by apply IH.
Qed.

(** The entries of the returned mapping are payoff marks of debts that
    carry the key as their name. *)
Lemma by_name_values ds pom key v :
  by_name ds pom !! key = Some v ->
  ∃ i d, ds !! i = Some d ∧ name d = key ∧ v = default None (pom !! i).
Proof.
  rewrite by_name_foldl. intros H.
  apply foldl_assign_values in H as [H|([i d] & Hin & Hn & Hv)];
    [by rewrite lookup_empty in H|].
  apply elem_of_lookup_imap in Hin as (j & y & [= -> ->] & Hy).
  by exists j, y.
Qed.

Lemma by_name_present ds pom i d :
  ds !! i = Some d -> is_Some (by_name ds pom !! name d).
Proof.
  intros Hd. rewrite by_name_foldl.
  apply (foldl_assign_present pom _ ∅ (i, d)).
  apply elem_of_lookup_imap. by exists i, d.
Qed.

End PayoffFacts.

Section EndOfRun.
Local Open Scope Q_scope.

Lemma loop_enters fuel budget order st :
  keep_going st = true ->
  (S (month st) <= month (loop (S fuel) budget order st))%nat.
Proof.
  intros Hk. cbn [loop]. rewrite Hk.
  pose proof (loop_reachable fuel budget order _ _
                (reach_start budget order (month_step budget order st)))
    as Hr.
  apply reachable_month_mono in Hr. by rewrite month_month_step in Hr.
Qed.

(** When [simulate] returns, it has simulated no month exactly when no
    balance exceeds epsilon at the start.  In that case it returns no
    snapshot, 0 months and 0 interest, and every debt is reported with
    its payoff month unset, although nothing is owed. *)
Theorem nothing_to_pay ds budget strategy df res :
  simulate ds budget strategy = inr (df, res) ->
  (months res = 0%nat <-> count_unpaid ds = 0%nat) ∧
  (count_unpaid ds = 0%nat ->
   df = [] ∧ total_interest_2 res = 0 ∧
   ∀ i d, ds !! i = Some d -> paid_off_months res !! name d = Some None).
Proof.
  intros Hout. pose proof (simulate_result_valid _ _ _ _ Hout) as Hv.
  rewrite (simulate_valid _ _ strategy Hv) in Hout.
  injection Hout as <- <-.
  cbn [months total_interest_2 paid_off_months result_of].
  destruct (count_unpaid ds) as [|c] eqn:Hc.
  - assert (final_state ds budget strategy = init_state ds) as ->.
    { unfold final_state. apply loop_idle. by rewrite keep_going_init, Hc. }
    split; [done|]. intros _. split; [done|]. split; [done|].
    intros i d Hd. cbn [debts paid_off_month init_state].
    destruct (by_name_present ds (unset_all (length ds)) i d Hd) as [v Hv'].
    rewrite Hv'. destruct (by_name_values _ _ _ _ Hv') as (j & d' & _ & _ & ->).
    rewrite unset_all_lookup. by destruct (decide (j < length ds)%nat).
  - split; [|done]. split; [|done]. intros Hm. exfalso.
    assert (keep_going (init_state ds) = true) as Hk
      by (by rewrite keep_going_init, Hc).
    pose proof (loop_enters 1199 budget (order_debts ds strategy) _ Hk)
      as Hr.
    change (loop 1200 budget (order_debts ds strategy) (init_state ds))
      with (final_state ds budget strategy) in Hr. lia.
Qed.

Lemma nothing_to_pay_witness :
  simulate dust 10 snowball
  = inr (rows (final_state dust 10 snowball),
         result_of (final_state dust 10 snowball)) ∧
  (months (result_of (final_state dust 10 snowball)) = 0%nat
   <-> count_unpaid dust = 0%nat).
Proof.
  assert (H : simulate dust 10 snowball
              = inr (rows (final_state dust 10 snowball),
                     result_of (final_state dust 10 snowball))).
  { apply simulate_valid. valid_by_computation. }
  split; [exact H|].
  exact (proj1 (nothing_to_pay dust 10 snowball _ _ H)).
Defined.



End EndOfRun.

(** ** Payments and the remaining budget *)

Section PaymentFacts.
Local Open Scope Q_scope.

Lemma sane_run_terms ds budget strategy st :
  Forall (fun d => 0 <= balance d ∧ 0 <= min_pay d ∧ 0 <= apr_pct d) ds ->
  in_run ds budget strategy st ->
  Forall (fun d => 0 <= apr_pct d ∧ 0 <= min_pay d) (debts st).
Proof.
  intros Hall Hrun. apply reachable_static in Hrun.
  by eapply terms_ok_of_static.
Qed.

Lemma sane_run_nonneg ds budget strategy st :
  Forall (fun d => 0 <= balance d ∧ 0 <= min_pay d ∧ 0 <= apr_pct d) ds ->
  in_run ds budget strategy st -> Forall nonneg (debts st).
Proof.
  intros Hall Hrun. induction Hrun as [|st Hrun IH _].
  - simpl. eapply Forall_impl; [exact Hall|]. by intros d (? & _).
  - apply month_step_nonneg; [|done]. by eapply sane_run_terms.
Qed.

Lemma min_payments_nonneg ds budget strategy st :
  Forall (fun d => 0 <= balance d ∧ 0 <= min_pay d ∧ 0 <= apr_pct d) ds ->
  in_run ds budget strategy st ->
  Forall (fun p => 0 <= p)
    (min_payments (month_body budget (order_debts ds strategy) (debts st))).
Proof.
  intros Hv Hrun. rewrite min_payments_eq. rewrite <- list_fmap_compose.
  apply Forall_fmap, Forall_forall. intros d Hd. simpl.
  pose proof (sane_run_nonneg _ _ _ _ Hv Hrun) as Hn.
  pose proof (sane_run_terms _ _ _ _ Hv Hrun) as Ht.
  rewrite Forall_forall in Hn, Ht. destruct (Ht d Hd) as [Hr Hm].
  pose proof (accrue_nonneg d Hr (Hn d Hd)) as Hb1.
  assert (0 <= min_pay (accrue d).1) as Hm1.
  { pose proof (static_fields _ _ (static_accrue d)) as (_ & _ & E).
    by rewrite E. }
  destruct (min_paid_spec _ Hm1 Hb1) as [S1 _]. rewrite S1.
  unfold nonneg in Hb1. apply Q.min_glb; lra.
Qed.

(** When no debt has a negative balance, minimum payment or rate, no
    payment of any month is negative, and the remaining budget of a
    month never exceeds the monthly budget: paying only ever takes from
    the budget. *)
Theorem payments_never_negative ds budget strategy st :
  Forall (fun d => 0 <= balance d ∧ 0 <= min_pay d ∧ 0 <= apr_pct d) ds ->
  in_run ds budget strategy st ->
  let b := month_body budget (order_debts ds strategy) (debts st) in
  Forall (fun p => 0 <= p) (min_payments b) ∧
  Forall (fun p => 0 <= p) (payments b) ∧
  remaining b <= budget.
Proof.
  intros Hv Hrun. cbv zeta.
  pose proof (min_payments_nonneg _ _ _ _ Hv Hrun) as Hnn.
  pose proof (sum_nonneg _ Hnn) as Hsum.
  assert (Hrb : (pay_minimums
                   (after_interest (month_body budget
                      (order_debts ds strategy) (debts st))) budget).2
                == budget
                   - Num.sum (min_payments (month_body budget
                                (order_debts ds strategy) (debts st)))).
  { rewrite pay_minimums_remaining, min_payments_eq, after_interest_eq.
    reflexivity. }
  pose proof (allocation_eq budget (order_debts ds strategy) (debts st))
    as Ha. cbv zeta in Ha.
  set (b := month_body budget (order_debts ds strategy) (debts st)) in *.
  set (rb := (pay_minimums (after_interest b) budget).2) in *.
  split; [done|].
  destruct (allocate_extra_split (order_debts ds strategy)
              (after_minimums b) (min_payments b) rb)
    as [[_ E]|(j0 & d0 & Hpos & _ & Hd0 & Hb0 & E)];
    rewrite E in Ha; injection Ha as _ E5 E6; rewrite E5, E6.
  - split; [done|]. clearbody rb. clearbody b. lra.
  - assert (0 <= Num.min rb (balance d0)) as He1.
    { apply min_nonneg; [lra|]. pose proof epsilon_pos. lra. }
    split.
    + apply Forall_alter; [done|]. intros p _ Hp.
      rewrite add_correct. lra.
    + rewrite sub_correct. clearbody rb. clearbody b. lra.
Qed.

Lemma payments_never_negative_witness :
  let b := month_body 100 (order_debts two_cards avalanche) two_cards in
  Forall (fun d => 0 <= balance d ∧ 0 <= min_pay d ∧ 0 <= apr_pct d)
    two_cards ∧
  in_run two_cards 100 avalanche (init_state two_cards) ∧
  Forall (fun p => 0 <= p) (payments b) ∧
  remaining b <= 100.
Proof.
  cbv zeta.
  assert (Hv : Forall (fun d => 0 <= balance d ∧ 0 <= min_pay d
                                ∧ 0 <= apr_pct d) two_cards)
    by (repeat constructor; vm_compute; discriminate).
  assert (Hr : in_run two_cards 100 avalanche (init_state two_cards))
    by apply reach_start.
  split; [exact Hv|]. split; [exact Hr|].
  exact (proj2 (payments_never_negative two_cards 100 avalanche _ Hv Hr)).
Defined.

End PaymentFacts.

(** ** The columns of a snapshot *)

Section ColumnFacts.

Lemma snapshot_keeps_key (l : list (Debt * Q)) (r : gmap string Cell) key :
  is_Some (r !! key) ->
  is_Some
    (foldl (fun row '(d, p) =>
              <[paid_key d := CNum (Num.round2 p)]>
                (<[balance_key d := CNum (Num.round2 (balance d))]> row))
       r l !! key).
Proof.
  revert r. induction l as [|[d p] l IH]; intros r Hr; simpl; [done|].
  apply IH. rewrite !lookup_insert_is_Some'. tauto.
Qed.

Lemma snapshot_debt_keys (l : list (Debt * Q)) (r : gmap string Cell) d p :
  (d, p) ∈ l ->
  let row :=
    foldl (fun row '(d, p) =>
             <[paid_key d := CNum (Num.round2 p)]>
               (<[balance_key d := CNum (Num.round2 (balance d))]> row))
      r l in
  is_Some (row !! balance_key d) ∧ is_Some (row !! paid_key d).
Proof.
  cbv zeta. revert r. induction l as [|[d' p'] l IH]; intros r Hin;
    [by apply elem_of_nil in Hin|].
  simpl. apply elem_of_cons in Hin as [[= <- <-]|Hin]; [|by apply IH].
  split; apply snapshot_keeps_key; rewrite !lookup_insert_is_Some'; tauto.
Qed.

Lemma snapshot_columns m rb total ds ps i d p :
  ds !! i = Some d -> ps !! i = Some p ->
  let row := snapshot m rb total ds ps in
  is_Some (row !! "Month"%string) ∧
  is_Some (row !! "Remaining Budget ($)"%string) ∧
  is_Some (row !! "Total Interest Accrued To Date ($)"%string) ∧
  is_Some (row !! balance_key d) ∧ is_Some (row !! paid_key d).
Proof.
  intros Hd Hp. cbv zeta. unfold snapshot.
  do 3 (split; [apply snapshot_keeps_key;
                rewrite !lookup_insert_is_Some'; tauto|]).
  apply (snapshot_debt_keys _ _ d p). apply list_elem_of_lookup. exists i.
  apply lookup_zip_with_Some. by exists d, p.
Qed.

(** Every snapshot of a run carries the month, the remaining budget, the
    interest to date and, for every debt of the input, a balance column
    and a paid-this-month column under the debt's name. *)
Theorem every_row_has_all_columns ds budget strategy st row i d :
  in_run ds budget strategy st -> row ∈ rows st -> ds !! i = Some d ->
  is_Some (row !! "Month"%string) ∧
  is_Some (row !! "Remaining Budget ($)"%string) ∧
  is_Some (row !! "Total Interest Accrued To Date ($)"%string) ∧
  is_Some (row !! balance_key d) ∧ is_Some (row !! paid_key d).
Proof.
  intros Hrun Hrow Hd. induction Hrun as [|st Hrun IH Hk].
  - by apply elem_of_nil in Hrow.
  - rewrite month_step_eq in Hrow. cbv zeta in Hrow. cbn [rows] in Hrow.
    apply elem_of_app in Hrow as [Hrow|Hrow]; [by apply IH|].
    apply list_elem_of_singleton in Hrow as ->.
    pose proof (reachable_static _ _ _ _ Hrun) as Hs. simpl in Hs.
    destruct (static_lookup _ _ i d (eq_sym Hs) Hd) as (d1 & Hd1 & _).
    destruct (month_body_at budget (order_debts ds strategy) _ i d1 Hd1)
      as (_ & _ & _ & _ & Hw). cbv zeta in Hw.
    assert (∃ p, payments (month_body budget (order_debts ds strategy)
                             (debts st)) !! i = Some p) as [p Hp].
    { destruct Hw as [(_ & E & _)|(_ & _ & _ & _ & E)]; by eexists. }
    assert (static <$> (mark_payoffs (S (month st)) 0
                          (after_waterfall
                             (month_body budget (order_debts ds strategy)
                                (debts st)))
                          (paid_off_month st)).1 = static <$> ds) as Hs4.
    { by rewrite static_mark_payoffs, static_month_body. }
    destruct (static_lookup _ _ i d (eq_sym Hs4) Hd) as (d4 & Hd4 & E).
    apply static_fields in E as (En & _).
    unfold balance_key, paid_key. rewrite En.
    exact (snapshot_columns _ _ _ _ _ i d4 p Hd4 Hp).
Qed.

Lemma every_row_has_all_columns_witness :
  let st := month_step 100 (order_debts two_cards avalanche)
              (init_state two_cards) in
  let row := default ∅ (rows st !! 0%nat) in
  in_run two_cards 100 avalanche st ∧
  row ∈ rows st ∧
  two_cards !! 1%nat = Some (mkDebt "B" 2000 5 40) ∧
  is_Some (row !! balance_key (mkDebt "B" 2000 5 40)).
Proof.
  cbv zeta.
  assert (H1 : in_run two_cards 100 avalanche
                 (month_step 100 (order_debts two_cards avalanche)
                    (init_state two_cards))).
  { apply reach_month; [apply reach_start | vm_compute; reflexivity]. }
  assert (H2 : default ∅
                 (rows (month_step 100 (order_debts two_cards avalanche)
                          (init_state two_cards)) !! 0%nat)
               ∈ rows (month_step 100 (order_debts two_cards avalanche)
                         (init_state two_cards))).
  { destruct (rows_numbered_run _ _ _ _ H1) as [Hlen _].
    rewrite month_month_step in Hlen.
    destruct (rows (month_step 100 (order_debts two_cards avalanche)
                      (init_state two_cards))) as [|r rs];
      [discriminate Hlen | by left]. }
  assert (H3 : two_cards !! 1%nat = Some (mkDebt "B" 2000 5 40))
    by reflexivity.
  split; [exact H1|]. split; [exact H2|]. split; [exact H3|].
  exact (proj1 (proj2 (proj2 (proj2
    (every_row_has_all_columns two_cards 100 avalanche _ _ 1%nat _
       H1 H2 H3))))).
Defined.

End ColumnFacts.
